(** * openDCM: similarity transforms and the parallelism kernel

    A shallow embedding of
      - [opendcm/core/transformation.hpp]  (class [dcm::details::Transform], Dim = 3),
      - [opengcm/module3d/parallel.hpp]    (namespace [gcm::parallel], [Parallel3D]),
    together with the properties the specification states about them.

    The template parameter [Scalar] is instantiated with the real numbers [R]:
    arithmetic is exact, so the specification's "approximately equal" is read
    as equality.  Rounding, NaN and overflow of [double] are outside this model. *)

From Stdlib Require Import Reals Lra Lia List Bool Arith.
Import ListNotations.

Local Open Scope R_scope.

(** ** The parts of Eigen the two headers rely on *)

Module Eigen.

(** [Eigen::Matrix<Scalar,3,1>] *)
Record Vector3 : Type := mkVector3 { vx : R; vy : R; vz : R }.

Definition Zero : Vector3 := mkVector3 0 0 0.

Definition vadd (a b : Vector3) : Vector3 :=
  mkVector3 (vx a + vx b) (vy a + vy b) (vz a + vz b).

Definition vsub (a b : Vector3) : Vector3 :=
  mkVector3 (vx a - vx b) (vy a - vy b) (vz a - vz b).

Definition vneg (a : Vector3) : Vector3 :=
  mkVector3 (- vx a) (- vy a) (- vz a).

(** [v * s] *)
Definition vmul (a : Vector3) (s : R) : Vector3 :=
  mkVector3 (vx a * s) (vy a * s) (vz a * s).

(** [v / s] *)
Definition vdiv (a : Vector3) (s : R) : Vector3 :=
  mkVector3 (vx a / s) (vy a / s) (vz a / s).

Definition dot (a b : Vector3) : R :=
  vx a * vx b + vy a * vy b + vz a * vz b.

Definition cross (a b : Vector3) : Vector3 :=
  mkVector3 (vy a * vz b - vz a * vy b)
            (vz a * vx b - vx a * vz b)
            (vx a * vy b - vy a * vx b).

Definition squaredNorm (a : Vector3) : R := dot a a.

Definition norm (a : Vector3) : R := sqrt (squaredNorm a).

(** [Eigen::Quaternion<Scalar>], coefficients w, x, y, z. *)
Record Quaternion : Type := mkQuaternion { qw : R; qx : R; qy : R; qz : R }.

Definition QIdentity : Quaternion := mkQuaternion 1 0 0 0.

Definition vec (q : Quaternion) : Vector3 := mkVector3 (qx q) (qy q) (qz q).

(** [a * b], the Hamilton product. *)
Definition qmul (a b : Quaternion) : Quaternion :=
  mkQuaternion
    (qw a * qw b - qx a * qx b - qy a * qy b - qz a * qz b)
    (qw a * qx b + qx a * qw b + qy a * qz b - qz a * qy b)
    (qw a * qy b + qy a * qw b + qz a * qx b - qx a * qz b)
    (qw a * qz b + qz a * qw b + qx a * qy b - qy a * qx b).

Definition conjugate (q : Quaternion) : Quaternion :=
  mkQuaternion (qw q) (- qx q) (- qy q) (- qz q).

Definition qsquaredNorm (q : Quaternion) : R :=
  qw q * qw q + qx q * qx q + qy q * qy q + qz q * qz q.

Definition qnorm (q : Quaternion) : R := sqrt (qsquaredNorm q).

Definition qdiv (q : Quaternion) (s : R) : Quaternion :=
  mkQuaternion (qw q / s) (qx q / s) (qy q / s) (qz q / s).

(** [q.normalized()], and the value [q.normalize()] leaves in [q]:
    the coefficients divided by the norm. *)
Definition normalized (q : Quaternion) : Quaternion := qdiv q (qnorm q).

(** [q.inverse()]: the conjugate over the squared norm, the zero
    coefficients when the squared norm is not positive. *)
Definition qinverse (q : Quaternion) : Quaternion :=
  if Rlt_dec 0 (qsquaredNorm q)
  then qdiv (conjugate q) (qsquaredNorm q)
  else mkQuaternion 0 0 0 0.

(** [q * v] ([_transformVector]):
    [uv = vec.cross(v); uv += uv; v + w * uv + vec.cross(uv)]. *)
Definition transformVector (q : Quaternion) (v : Vector3) : Vector3 :=
  let uv := cross (vec q) v in
  let uv := vadd uv uv in
  vadd (vadd v (vmul uv (qw q))) (cross (vec q) uv).

(** Not Eigen's: the rotation [q v q*] of a vector, written out.  Eigen's
    [_transformVector] agrees with it on quaternions of norm one. *)
Definition sandwich (q : Quaternion) (v : Vector3) : Vector3 :=
  vadd (vadd (vmul v (qw q * qw q - squaredNorm (vec q)))
             (vmul (vec q) (2 * dot (vec q) v)))
       (vmul (cross (vec q) v) (2 * qw q)).

End Eigen.

Import Eigen.

(** ** [transformation.hpp]: class [Transform<Scalar, 3>] *)

(** [m_translation] holds the vector of an [Eigen::Translation],
    [m_scale] the factor of an [Eigen::UniformScaling]. *)
Record Transform : Type := mkTransform {
  m_rotation    : Quaternion;
  m_translation : Vector3;
  m_scale       : R
}.

Definition with_rotation (T : Transform) (r : Quaternion) : Transform :=
  mkTransform r (m_translation T) (m_scale T).

Definition with_translation (T : Transform) (t : Vector3) : Transform :=
  mkTransform (m_rotation T) t (m_scale T).

Definition with_scale (T : Transform) (s : R) : Transform :=
  mkTransform (m_rotation T) (m_translation T) s.

(** The six constructors. *)
Definition Transform_default : Transform := mkTransform QIdentity Zero 1.

Definition Transform_r (r : Quaternion) : Transform :=
  mkTransform (normalized r) Zero 1.

Definition Transform_t (t : Vector3) : Transform :=
  mkTransform QIdentity t 1.

Definition Transform_s (s : R) : Transform :=
  mkTransform QIdentity Zero s.

Definition Transform_rt (r : Quaternion) (t : Vector3) : Transform :=
  mkTransform (normalized r) t 1.

Definition Transform_rts (r : Quaternion) (t : Vector3) (s : R) : Transform :=
  mkTransform (normalized r) t s.

(** Access the single parts and manipulate them. *)
Definition setRotation (T : Transform) (rotation : Quaternion) : Transform :=
  with_rotation T (normalized rotation).

Definition rotate (T : Transform) (rotation : Quaternion) : Transform :=
  with_rotation T (qmul (normalized rotation) (m_rotation T)).

Definition setTranslation (T : Transform) (translation : Vector3) : Transform :=
  with_translation T translation.

(** [m_translation = m_translation * translation]: the product of two
    [Eigen::Translation]s adds their vectors. *)
Definition translate (T : Transform) (translation : Vector3) : Transform :=
  with_translation T (vadd (m_translation T) translation).

Definition setScale (T : Transform) (scaling : R) : Transform :=
  with_scale T scaling.

Definition scale (T : Transform) (scaling : R) : Transform :=
  with_scale T (m_scale T * scaling).

(** [invert]: the three assignments in order; the second reads the
    rotation the first has already replaced and the scale the third has
    not yet replaced. *)
Definition invert (T : Transform) : Transform :=
  let T1 := with_rotation T (qinverse (m_rotation T)) in
  let T2 := with_translation T1
              (vmul (transformVector (m_rotation T1) (m_translation T1))
                    (- m_scale T1)) in
  with_scale T2 (1 / m_scale T2).

Definition inverse (T : Transform) : Transform := invert T.

(** Operators for value manipulation. *)
Definition assign_Translation (T : Transform) (t : Vector3) : Transform :=
  mkTransform QIdentity t 1.

Definition mul_Translation (T : Transform) (t : Vector3) : Transform :=
  translate T t.

Definition assign_Scaling (T : Transform) (s : R) : Transform :=
  mkTransform QIdentity Zero s.

Definition mul_Scaling (T : Transform) (s : R) : Transform :=
  scale T s.

Definition assign_Rotation (T : Transform) (r : Quaternion) : Transform :=
  mkTransform (normalized r) Zero 1.

Definition mul_Rotation (T : Transform) (r : Quaternion) : Transform :=
  rotate T r.

(** Transform vectors. *)
Definition rotate_vec (T : Transform) (v : Vector3) : Vector3 :=
  transformVector (m_rotation T) v.

Definition translate_vec (T : Transform) (v : Vector3) : Vector3 :=
  vadd v (m_translation T).

Definition scale_vec (T : Transform) (v : Vector3) : Vector3 :=
  vmul v (m_scale T).

(** [transform(vec)], [operator*(vec)] and [operator()(vec)] all compute
    [(m_rotation*vec + m_translation.vector())*m_scale.factor()]. *)
Definition transform (T : Transform) (v : Vector3) : Vector3 :=
  vmul (vadd (transformVector (m_rotation T) v) (m_translation T)) (m_scale T).

Definition mul_vec (T : Transform) (v : Vector3) : Vector3 :=
  vmul (vadd (transformVector (m_rotation T) v) (m_translation T)) (m_scale T).

Definition setIdentity (T : Transform) : Transform :=
  mkTransform QIdentity Zero 1.

Definition Identity : Transform := Transform_rts QIdentity Zero 1.

Definition normalize (T : Transform) : Transform :=
  with_rotation T (normalized (m_rotation T)).

(** *** [operator*=(const Transform& other)]

    The operator updates [*this] in place while it reads [other] through a
    reference, and nothing stops the two from being the same object.  The
    objects therefore live in a store, and every read of [other] goes
    through the store as it is at that statement. *)

Definition loc : Type := nat.

Definition store : Type := loc -> Transform.

Definition upd (st : store) (l : loc) (T : Transform) : store :=
  fun l' => if Nat.eqb l' l then T else st l'.

Definition mul_assign (this other : loc) (st : store) : store :=
  (* rotate(other.rotation()); *)
  let st1 := upd st this (rotate (st this) (m_rotation (st other))) in
  (* other.rotate(m_translation.vector()); *)
  let st2 := upd st1 this
               (with_translation (st1 this)
                  (rotate_vec (st1 other) (m_translation (st1 this)))) in
  (* m_translation.vector() += other.translation().vector()/m_scale.factor(); *)
  let st3 := upd st2 this
               (with_translation (st2 this)
                  (vadd (m_translation (st2 this))
                        (vdiv (m_translation (st2 other)) (m_scale (st2 this))))) in
  (* m_scale.factor() *= other.scaling().factor(); *)
  upd st3 this
      (with_scale (st3 this) (m_scale (st3 this) * m_scale (st3 other))).

(** [operator*(const Transform& other) const]: [res] is a fresh copy of
    [*this], so [other] never aliases it. *)
Definition mul (A B : Transform) : Transform :=
  let st : store := fun l => match l with O => A | _ => B end in
  mul_assign 0%nat 1%nat st 0%nat.

(** [A *= A]: the call in which [other] is [*this]. *)
Definition mul_assign_self (A : Transform) : Transform :=
  mul_assign 0%nat 0%nat (fun _ => A) 0%nat.

(** ** The mutating operations of [Transform], as data

    One constructor per way the class changes (or first sets) the fields
    of an object, so that a property of "every mutating operation" can be
    stated once. *)
Inductive Mutation : Type :=
  | Construct                                   (* Transform() *)
  | Construct_r (r : Quaternion)                (* Transform(r) *)
  | Construct_t (t : Vector3)                   (* Transform(t) *)
  | Construct_s (s : R)                         (* Transform(s) *)
  | Construct_rt (r : Quaternion) (t : Vector3)
  | Construct_rts (r : Quaternion) (t : Vector3) (s : R)
  | SetRotation (r : Quaternion)
  | Rotate (r : Quaternion)
  | SetTranslation (t : Vector3)
  | Translate (t : Vector3)
  | SetScale (s : R)
  | Scale (s : R)
  | Invert
  | SetIdentity
  | Normalize
  | AssignTranslation (t : Vector3)             (* operator=(Translation) *)
  | AssignScaling (s : R)                       (* operator=(Scaling) *)
  | AssignRotation (r : Quaternion)             (* operator=(Rotation) *)
  | AssignTransform (other : Transform)         (* the implicit copy assignment *)
  | MulTranslation (t : Vector3)                (* operator*=(Translation) *)
  | MulScaling (s : R)                          (* operator*=(Scaling) *)
  | MulRotation (r : Quaternion)                (* operator*=(Rotation) *)
  | MulTransform (other : Transform)            (* operator*=(other), other a distinct object *)
  | MulSelf.                                    (* operator*= with itself as other *)

Definition mutate (m : Mutation) (T : Transform) : Transform :=
  match m with
  | Construct => Transform_default
  | Construct_r r => Transform_r r
  | Construct_t t => Transform_t t
  | Construct_s s => Transform_s s
  | Construct_rt r t => Transform_rt r t
  | Construct_rts r t s => Transform_rts r t s
  | SetRotation r => setRotation T r
  | Rotate r => rotate T r
  | SetTranslation t => setTranslation T t
  | Translate t => translate T t
  | SetScale s => setScale T s
  | Scale s => scale T s
  | Invert => invert T
  | SetIdentity => setIdentity T
  | Normalize => normalize T
  | AssignTranslation t => assign_Translation T t
  | AssignScaling s => assign_Scaling T s
  | AssignRotation r => assign_Rotation T r
  | AssignTransform other => other
  | MulTranslation t => mul_Translation T t
  | MulScaling s => mul_Scaling T s
  | MulRotation r => mul_Rotation T r
  | MulTransform other => mul T other
  | MulSelf => mul_assign_self T
  end.

(** The zero quaternion: a value of the rotation type that no
    normalisation turns into a rotation. *)
Definition QZero : Quaternion := mkQuaternion 0 0 0 0.

(** The invariant of the data model: the rotation has norm one. *)
Definition unit_rotation (T : Transform) : Prop := qnorm (m_rotation T) = 1.

(** What a caller has to supply for the invariant to survive: a rotation
    argument is not the zero quaternion, a [Transform] argument satisfies
    the invariant itself. *)
Definition admissible (m : Mutation) : Prop :=
  match m with
  | Construct_r r | Construct_rt r _ | Construct_rts r _ _
  | SetRotation r | Rotate r | AssignRotation r | MulRotation r => r <> QZero
  | AssignTransform other | MulTransform other => unit_rotation other
  | _ => True
  end.

(** ** [parallel.hpp] *)

(** The possible directions. *)
Inductive Direction : Type := Same | Opposite | Both.

(** Fallible code: [None] is a failed [assert] (the build keeps
    assertions, i.e. [NDEBUG] is not defined). *)
Definition bind {A B : Type} (x : option A) (k : A -> option B) : option B :=
  match x with
  | Some a => k a
  | None => None
  end.

Notation "x <- e ;; k" := (bind e (fun x => k))
  (at level 61, e at next level, right associativity).

Module parallel.

Definition calc (d1 d2 : Vector3) (dir : Direction) : R :=
  match dir with
  | Same => norm (vsub d1 d2)
  | Opposite => norm (vadd d1 d2)
  | Both =>
      if Rge_dec (dot d1 d2) 0
      then norm (vsub d1 d2)
      else norm (vadd d1 d2)
  end.

Definition calcGradFirst (d1 d2 dd1 : Vector3) (dir : Direction) : R :=
  match dir with
  | Same => dot (vsub d1 d2) dd1 / norm (vsub d1 d2)
  | Opposite => dot (vadd d1 d2) dd1 / norm (vadd d1 d2)
  | Both =>
      if Rge_dec (dot d1 d2) 0
      then dot (vsub d1 d2) dd1 / norm (vsub d1 d2)
      else dot (vadd d1 d2) dd1 / norm (vadd d1 d2)
  end.

Definition calcGradSecond (d1 d2 dd2 : Vector3) (dir : Direction) : R :=
  match dir with
  | Same => dot (vsub d1 d2) (vneg dd2) / norm (vsub d1 d2)
  | Opposite => dot (vadd d1 d2) dd2 / norm (vadd d1 d2)
  | Both =>
      if Rge_dec (dot d1 d2) 0
      then dot (vsub d1 d2) (vneg dd2) / norm (vsub d1 d2)
      else dot (vadd d1 d2) dd2 / norm (vadd d1 d2)
  end.

(** [grad] is a view on three entries of the caller's gradient; the
    result is what the view holds when the function returns. *)
Definition calcGradFirstComp (d1 d2 grad : Vector3) (dir : Direction)
  : option Vector3 :=
  match dir with
  | Same => Some (vdiv (vsub d1 d2) (norm (vsub d1 d2)))
  | Opposite => Some (vdiv (vadd d1 d2) (norm (vadd d1 d2)))
  | Both => None
  end.

Definition calcGradSecondComp (d1 d2 grad : Vector3) (dir : Direction)
  : option Vector3 :=
  match dir with
  | Same => Some (vdiv (vsub d2 d1) (norm (vsub d1 d2)))
  | Opposite => Some (vdiv (vadd d2 d1) (norm (vadd d1 d2)))
  | Both => None
  end.

End parallel.

(** The branch the [Both] case of a kernel function takes, read off the
    test [d1.dot(d2) >= 0] that each of them spells out. *)
Definition branch_of (d1 d2 : Vector3) : Direction :=
  if Rge_dec (dot d1 d2) 0 then Same else Opposite.

(** *** Blocks of a dynamically sized vector ([Kernel::VectorMap])

    [segment<3>(i)], [head<3>()] and [tail<3>()]; Eigen asserts that the
    block lies inside the vector. *)
Definition segment3 (v : list R) (i : nat) : option Vector3 :=
  match skipn i v with
  | x :: y :: z :: _ => Some (mkVector3 x y z)
  | _ => None
  end.

Definition head3 (v : list R) : option Vector3 := segment3 v 0.

Definition tail3 (v : list R) : option Vector3 :=
  if (3 <=? length v)%nat then segment3 v (length v - 3) else None.

Definition set_segment3 (v : list R) (i : nat) (w : Vector3) : option (list R) :=
  if (i + 3 <=? length v)%nat
  then Some (firstn i v ++ [vx w; vy w; vz w] ++ skipn (i + 3) v)
  else None.

Definition set_head3 (v : list R) (w : Vector3) : option (list R) :=
  set_segment3 v 0 w.

Definition set_tail3 (v : list R) (w : Vector3) : option (list R) :=
  if (3 <=? length v)%nat then set_segment3 v (length v - 3) w else None.

(** The geometry tags ([geometry.hpp]) this header mentions, and one it
    does not specialise for. *)
Inductive tag : Type := point3D | line3D | plane3D | cylinder3D.

Module Parallel3D_line.

Definition calculate (m_dir : Direction) (param1 param2 : list R) : option R :=
  d1 <- tail3 param1 ;; d2 <- tail3 param2 ;;
  Some (parallel.calc d1 d2 m_dir).

Definition calculateGradientFirst (m_dir : Direction)
    (param1 param2 dparam1 : list R) : option R :=
  d1 <- tail3 param1 ;; d2 <- tail3 param2 ;; dd1 <- tail3 dparam1 ;;
  Some (parallel.calcGradFirst d1 d2 dd1 m_dir).

Definition calculateGradientSecond (m_dir : Direction)
    (param1 param2 dparam2 : list R) : option R :=
  d1 <- tail3 param1 ;; d2 <- tail3 param2 ;; dd2 <- tail3 dparam2 ;;
  Some (parallel.calcGradSecond d1 d2 dd2 m_dir).

Definition calculateGradientFirstComplete (m_dir : Direction)
    (param1 param2 gradient : list R) : option (list R) :=
  gradient <- set_head3 gradient Zero ;;
  d1 <- tail3 param1 ;; d2 <- tail3 param2 ;; grad <- tail3 gradient ;;
  grad <- parallel.calcGradFirstComp d1 d2 grad m_dir ;;
  set_tail3 gradient grad.

Definition calculateGradientSecondComplete (m_dir : Direction)
    (param1 param2 gradient : list R) : option (list R) :=
  gradient <- set_head3 gradient Zero ;;
  d1 <- tail3 param1 ;; d2 <- tail3 param2 ;; grad <- tail3 gradient ;;
  grad <- parallel.calcGradSecondComp d1 d2 grad m_dir ;;
  set_tail3 gradient grad.

End Parallel3D_line.

Module Parallel3D_cylinder.

Definition calculate (m_dir : Direction) (param1 param2 : list R) : option R :=
  d1 <- segment3 param1 3 ;; d2 <- segment3 param2 3 ;;
  Some (parallel.calc d1 d2 m_dir).

Definition calculateGradientFirst (m_dir : Direction)
    (param1 param2 dparam1 : list R) : option R :=
  d1 <- segment3 param1 3 ;; d2 <- segment3 param2 3 ;;
  dd1 <- segment3 dparam1 3 ;;
  Some (parallel.calcGradFirst d1 d2 dd1 m_dir).

Definition calculateGradientSecond (m_dir : Direction)
    (param1 param2 dparam2 : list R) : option R :=
  d1 <- segment3 param1 3 ;; d2 <- segment3 param2 3 ;;
  dd2 <- segment3 dparam2 3 ;;
  Some (parallel.calcGradSecond d1 d2 dd2 m_dir).

Definition calculateGradientFirstComplete (m_dir : Direction)
    (param1 param2 gradient : list R) : option (list R) :=
  gradient <- set_head3 gradient Zero ;;
  d1 <- segment3 param1 3 ;; d2 <- segment3 param2 3 ;;
  grad <- segment3 gradient 3 ;;
  grad <- parallel.calcGradFirstComp d1 d2 grad m_dir ;;
  set_segment3 gradient 3 grad.

Definition calculateGradientSecondComplete (m_dir : Direction)
    (param1 param2 gradient : list R) : option (list R) :=
  gradient <- set_head3 gradient Zero ;;
  d1 <- segment3 param1 3 ;; d2 <- segment3 param2 3 ;;
  grad <- segment3 gradient 3 ;;
  grad <- parallel.calcGradSecondComp d1 d2 grad m_dir ;;
  set_segment3 gradient 3 grad.

End Parallel3D_cylinder.

(** [Parallel3D<Kernel, Tag1, Tag2>]: the specialisations for
    (line, line), (plane, plane) and (line, plane) share the line code, the
    one for (cylinder, cylinder) has its own, and the primary template
    asserts. *)
Module Parallel3D.

Definition calculateGradientFirstComplete (Tag1 Tag2 : tag) (m_dir : Direction)
    (param1 param2 gradient : list R) : option (list R) :=
  match Tag1, Tag2 with
  | line3D, line3D | plane3D, plane3D | line3D, plane3D =>
      Parallel3D_line.calculateGradientFirstComplete m_dir param1 param2 gradient
  | cylinder3D, cylinder3D =>
      Parallel3D_cylinder.calculateGradientFirstComplete m_dir param1 param2 gradient
  | _, _ => None
  end.

Definition calculateGradientSecondComplete (Tag1 Tag2 : tag) (m_dir : Direction)
    (param1 param2 gradient : list R) : option (list R) :=
  match Tag1, Tag2 with
  | line3D, line3D | plane3D, plane3D | line3D, plane3D =>
      Parallel3D_line.calculateGradientSecondComplete m_dir param1 param2 gradient
  | cylinder3D, cylinder3D =>
      Parallel3D_cylinder.calculateGradientSecondComplete m_dir param1 param2 gradient
  | _, _ => None
  end.

End Parallel3D.

(** ** Distances *)

(** The distance of two points: the length of their difference. *)
Definition distance (a b : Vector3) : R := norm (vsub a b).

(** ** Further parts of Eigen: approximate comparison and affine maps *)

Definition Rltb (x y : R) : bool := if Rlt_dec x y then true else false.

Definition Rleb (x y : R) : bool := if Rle_dec x y then true else false.

Definition qsub (a b : Quaternion) : Quaternion :=
  mkQuaternion (qw a - qw b) (qx a - qx b) (qy a - qy b) (qz a - qz b).

(** The coefficients of [q] times [k]. *)
Definition qscale (q : Quaternion) (k : R) : Quaternion :=
  mkQuaternion (qw q * k) (qx q * k) (qy q * k) (qz q * k).

(** [a.isApprox(b, prec)] on quaternions compares the coefficient vectors:
    [(a - b).squaredNorm() <= prec * prec * min(a.squaredNorm(), b.squaredNorm())]. *)
Definition qisApprox (a b : Quaternion) (prec : R) : bool :=
  Rleb (qsquaredNorm (qsub a b))
       (prec * prec * Rmin (qsquaredNorm a) (qsquaredNorm b)).

(** A 3x3 matrix, row by row. *)
Record Matrix3 : Type := mkMatrix3 {
  m00 : R; m01 : R; m02 : R;
  m10 : R; m11 : R; m12 : R;
  m20 : R; m21 : R; m22 : R
}.

Definition MIdentity : Matrix3 := mkMatrix3 1 0 0 0 1 0 0 0 1.

Definition mat_vec (M : Matrix3) (v : Vector3) : Vector3 :=
  mkVector3 (m00 M * vx v + m01 M * vy v + m02 M * vz v)
            (m10 M * vx v + m11 M * vy v + m12 M * vz v)
            (m20 M * vx v + m21 M * vy v + m22 M * vz v).

Definition mat_mul (A B : Matrix3) : Matrix3 :=
  mkMatrix3
    (m00 A * m00 B + m01 A * m10 B + m02 A * m20 B)
    (m00 A * m01 B + m01 A * m11 B + m02 A * m21 B)
    (m00 A * m02 B + m01 A * m12 B + m02 A * m22 B)
    (m10 A * m00 B + m11 A * m10 B + m12 A * m20 B)
    (m10 A * m01 B + m11 A * m11 B + m12 A * m21 B)
    (m10 A * m02 B + m11 A * m12 B + m12 A * m22 B)
    (m20 A * m00 B + m21 A * m10 B + m22 A * m20 B)
    (m20 A * m01 B + m21 A * m11 B + m22 A * m21 B)
    (m20 A * m02 B + m21 A * m12 B + m22 A * m22 B).

(** [q.toRotationMatrix()]. *)
Definition toRotationMatrix (q : Quaternion) : Matrix3 :=
  let tx := 2 * qx q in
  let ty := 2 * qy q in
  let tz := 2 * qz q in
  let twx := tx * qw q in
  let twy := ty * qw q in
  let twz := tz * qw q in
  let txx := tx * qx q in
  let txy := ty * qx q in
  let txz := tz * qx q in
  let tyy := ty * qy q in
  let tyz := tz * qy q in
  let tzz := tz * qz q in
  mkMatrix3
    (1 - (tyy + tzz)) (txy - twz) (txz + twy)
    (txy + twz) (1 - (txx + tzz)) (tyz - twx)
    (txz - twy) (tyz + twx) (1 - (txx + tyy)).

(** [Eigen::Transform<Scalar, 3, AffineCompact>]: a linear part and a
    translation, acting by [linear * v + translation]. *)
Record Affine : Type := mkAffine {
  linear : Matrix3;
  affine_translation : Vector3
}.

(** The affine map built from a 3x3 matrix, and the one built from an
    [Eigen::Translation]. *)
Definition Affine_of_matrix (M : Matrix3) : Affine := mkAffine M Zero.

Definition Affine_of_translation (t : Vector3) : Affine := mkAffine MIdentity t.

(** [a * b]: the map that applies [b] first. *)
Definition affine_mul (a b : Affine) : Affine :=
  mkAffine (mat_mul (linear a) (linear b))
           (vadd (mat_vec (linear a) (affine_translation b)) (affine_translation a)).

Definition affine_apply (a : Affine) (v : Vector3) : Vector3 :=
  vadd (mat_vec (linear a) v) (affine_translation a).

(** ** [Transform]: the remaining members *)

Definition isApprox (T other : Transform) (prec : R) : bool :=
  qisApprox (m_rotation T) (m_rotation other) prec
  && Rltb (norm (vsub (m_translation T) (m_translation other))) prec
  && Rltb (Rabs (m_scale T - m_scale other)) prec.

Definition transformation (T : Transform) : Affine :=
  affine_mul (Affine_of_matrix (toRotationMatrix (m_rotation T)))
             (Affine_of_translation (m_translation T)).

(** ** Sample values *)

(** The half turn about the z axis. *)
Definition half_turn_z : Quaternion := mkQuaternion 0 0 0 1.

Definition sample_A : Transform := mkTransform half_turn_z (mkVector3 1 0 0) 2.

Definition sample_B : Transform := mkTransform QIdentity (mkVector3 0 1 0) 3.

Definition sample_v : Vector3 := mkVector3 1 2 3.

(** * Properties *)

(** ** Vectors and quaternions *)

Lemma vector3_eq (a b : Vector3) :
  vx a = vx b -> vy a = vy b -> vz a = vz b -> a = b.
Proof. destruct a, b; simpl; intros; subst; reflexivity. Qed.

Lemma quaternion_eq (a b : Quaternion) :
  qw a = qw b -> qx a = qx b -> qy a = qy b -> qz a = qz b -> a = b.
Proof. destruct a, b; simpl; intros; subst; reflexivity. Qed.

Ltac vec_ring :=
  apply vector3_eq;
  unfold transformVector, squaredNorm, dot, cross, vadd, vsub, vneg, vmul,
    vdiv, vec, Zero; simpl; try ring.

Ltac quat_ring :=
  apply quaternion_eq;
  unfold qmul, conjugate, qdiv, QIdentity; simpl; try ring.

Lemma sqrt_eq_1 (x : R) : sqrt x = 1 -> x = 1.
Proof.
  intros H.
  destruct (Rle_dec 0 x) as [Hx|Hx].
  - rewrite <- (sqrt_sqrt x Hx), H. ring.
  - rewrite sqrt_neg_0 in H by lra. lra.
Qed.

Lemma qsquaredNorm_nonneg (q : Quaternion) : 0 <= qsquaredNorm q.
Proof. unfold qsquaredNorm. nra. Qed.

Lemma squaredNorm_nonneg (v : Vector3) : 0 <= squaredNorm v.
Proof. unfold squaredNorm, dot. nra. Qed.

Lemma qnorm_unit (q : Quaternion) : qnorm q = 1 <-> qsquaredNorm q = 1.
Proof.
  unfold qnorm. split; intros H.
  - now apply sqrt_eq_1.
  - rewrite H. apply sqrt_1.
Qed.

Lemma qnorm_QIdentity : qnorm QIdentity = 1.
Proof. apply qnorm_unit. unfold qsquaredNorm, QIdentity; simpl. ring. Qed.

Lemma qsquaredNorm_zero (q : Quaternion) : qsquaredNorm q = 0 -> q = QZero.
Proof.
  unfold qsquaredNorm. intros H.
  apply quaternion_eq; simpl; nra.
Qed.

Lemma qsquaredNorm_pos (q : Quaternion) : q <> QZero -> 0 < qsquaredNorm q.
Proof.
  intros Hq. destruct (qsquaredNorm_nonneg q) as [H|H]; [exact H|].
  exfalso. apply Hq, qsquaredNorm_zero. symmetry; exact H.
Qed.

Lemma qsquaredNorm_qdiv (q : Quaternion) (s : R) :
  s <> 0 -> qsquaredNorm (qdiv q s) = qsquaredNorm q / (s * s).
Proof. intros Hs. unfold qsquaredNorm, qdiv; simpl. field. exact Hs. Qed.

Lemma qdiv_1 (q : Quaternion) : qdiv q 1 = q.
Proof. apply quaternion_eq; unfold qdiv; simpl; field. Qed.

(** Normalising a quaternion other than zero gives one of norm one. *)
Lemma qnorm_normalized (q : Quaternion) : q <> QZero -> qnorm (normalized q) = 1.
Proof.
  intros Hq. pose proof (qsquaredNorm_pos q Hq) as Hpos.
  apply qnorm_unit. unfold normalized, qnorm.
  assert (Hs : sqrt (qsquaredNorm q) <> 0).
  { pose proof (sqrt_lt_R0 _ Hpos). lra. }
  rewrite qsquaredNorm_qdiv by exact Hs.
  rewrite sqrt_sqrt by lra. field. lra.
Qed.

(** Normalising a quaternion of norm one leaves it as it is. *)
Lemma normalized_unit (q : Quaternion) : qnorm q = 1 -> normalized q = q.
Proof. intros H. unfold normalized. rewrite H. apply qdiv_1. Qed.

Lemma qsquaredNorm_qmul (a b : Quaternion) :
  qsquaredNorm (qmul a b) = qsquaredNorm a * qsquaredNorm b.
Proof. unfold qsquaredNorm, qmul; simpl; ring. Qed.

Lemma qnorm_qmul (a b : Quaternion) :
  qnorm a = 1 -> qnorm b = 1 -> qnorm (qmul a b) = 1.
Proof.
  rewrite !qnorm_unit, qsquaredNorm_qmul. intros -> ->. ring.
Qed.

Lemma qsquaredNorm_conjugate (q : Quaternion) :
  qsquaredNorm (conjugate q) = qsquaredNorm q.
Proof. unfold qsquaredNorm, conjugate; simpl; ring. Qed.

Lemma qinverse_unit (q : Quaternion) : qnorm q = 1 -> qinverse q = conjugate q.
Proof.
  intros H. apply qnorm_unit in H. unfold qinverse.
  destruct (Rlt_dec 0 (qsquaredNorm q)) as [_|Hn]; [|lra].
  rewrite H. apply qdiv_1.
Qed.

Lemma qnorm_qinverse (q : Quaternion) : qnorm q = 1 -> qnorm (qinverse q) = 1.
Proof.
  intros H. rewrite (qinverse_unit q H).
  apply qnorm_unit. rewrite qsquaredNorm_conjugate. now apply qnorm_unit.
Qed.

Lemma qmul_QIdentity_l (q : Quaternion) : qmul QIdentity q = q.
Proof. quat_ring. Qed.

Lemma transformVector_sandwich (q : Quaternion) (v : Vector3) :
  transformVector q v = vadd (sandwich q v) (vmul v (1 - qsquaredNorm q)).
Proof. unfold sandwich, qsquaredNorm. vec_ring. Qed.

Lemma sandwich_qmul (a b : Quaternion) (v : Vector3) :
  sandwich (qmul a b) v = sandwich a (sandwich b v).
Proof. unfold sandwich, qmul. vec_ring. Qed.

Lemma transformVector_unit (q : Quaternion) (v : Vector3) :
  qnorm q = 1 -> transformVector q v = sandwich q v.
Proof.
  intros H. apply qnorm_unit in H.
  rewrite transformVector_sandwich, H. vec_ring.
Qed.

(** The product of two unit quaternions rotates like the second factor
    followed by the first. *)
Lemma transformVector_qmul (a b : Quaternion) (v : Vector3) :
  qnorm a = 1 -> qnorm b = 1 ->
  transformVector (qmul a b) v = transformVector a (transformVector b v).
Proof.
  intros Ha Hb.
  rewrite (transformVector_unit (qmul a b)) by now apply qnorm_qmul.
  rewrite (transformVector_unit a), (transformVector_unit b) by assumption.
  apply sandwich_qmul.
Qed.

Lemma transformVector_QIdentity (v : Vector3) : transformVector QIdentity v = v.
Proof. unfold QIdentity. vec_ring. Qed.

Lemma transformVector_vadd (q : Quaternion) (a b : Vector3) :
  transformVector q (vadd a b) = vadd (transformVector q a) (transformVector q b).
Proof. vec_ring. Qed.

Lemma transformVector_vmul (q : Quaternion) (a : Vector3) (s : R) :
  transformVector q (vmul a s) = vmul (transformVector q a) s.
Proof. vec_ring. Qed.

Lemma transformVector_Zero (q : Quaternion) : transformVector q Zero = Zero.
Proof. vec_ring. Qed.

Lemma transformVector_conjugate (q : Quaternion) (v : Vector3) :
  qnorm q = 1 -> transformVector (conjugate q) (transformVector q v) = v.
Proof.
  intros H.
  assert (Hc : qnorm (conjugate q) = 1).
  { apply qnorm_unit. rewrite qsquaredNorm_conjugate. now apply qnorm_unit. }
  rewrite <- transformVector_qmul by assumption.
  replace (qmul (conjugate q) q) with QIdentity.
  - apply transformVector_QIdentity.
  - apply qnorm_unit in H. unfold qsquaredNorm in H.
    apply quaternion_eq; unfold qmul, conjugate, QIdentity; simpl; lra.
Qed.

(** ** [Transform]: composition and inversion *)

(** The field-level law of [operator*]. *)
Lemma mul_fields (A B : Transform) :
  mul A B =
  mkTransform
    (qmul (normalized (m_rotation B)) (m_rotation A))
    (vadd (transformVector (m_rotation B) (m_translation A))
          (vdiv (m_translation B) (m_scale A)))
    (m_scale A * m_scale B).
Proof. reflexivity. Qed.

(** [operator*=] on two distinct objects leaves in [this] what
    [operator*] returns, and touches no other object. *)
Lemma mul_assign_distinct (this other : loc) (st : store) :
  this <> other ->
  mul_assign this other st this = mul (st this) (st other).
Proof.
  intros Hne. rewrite mul_fields. unfold mul_assign, upd.
  rewrite Nat.eqb_refl.
  destruct (Nat.eqb_spec other this) as [E|_]; [congruence|].
  reflexivity.
Qed.

Lemma mul_assign_frame (this other l : loc) (st : store) :
  l <> this -> mul_assign this other st l = st l.
Proof.
  intros Hne. unfold mul_assign, upd.
  destruct (Nat.eqb_spec l this) as [E|_]; [congruence|reflexivity].
Qed.

(** [A *= A]: the translation is rotated by the rotation the first
    statement has already squared, and then added to itself over the
    scale. *)
Lemma mul_assign_self_fields (A : Transform) :
  mul_assign_self A =
  let r := qmul (normalized (m_rotation A)) (m_rotation A) in
  let t := transformVector r (m_translation A) in
  mkTransform r (vadd t (vdiv t (m_scale A))) (m_scale A * m_scale A).
Proof. reflexivity. Qed.

Lemma transform_mul_vec (T : Transform) (v : Vector3) :
  transform T v = mul_vec T v.
Proof. reflexivity. Qed.

Lemma mul_action (A B : Transform) (v : Vector3) :
  m_scale A <> 0 -> unit_rotation A -> unit_rotation B ->
  mul_vec (mul A B) v = mul_vec B (mul_vec A v).
Proof.
  unfold unit_rotation. intros Hs HA HB.
  rewrite mul_fields. unfold mul_vec; simpl.
  rewrite (normalized_unit _ HB).
  rewrite (transformVector_qmul _ _ _ HB HA).
  rewrite transformVector_vmul, transformVector_vadd.
  generalize (transformVector (m_rotation B) (transformVector (m_rotation A) v)).
  generalize (transformVector (m_rotation B) (m_translation A)).
  intros p q.
  apply vector3_eq; unfold vadd, vmul, vdiv; simpl; field; exact Hs.
Qed.

Lemma unit_rotation_invert (T : Transform) :
  unit_rotation T -> unit_rotation (invert T).
Proof. unfold unit_rotation, invert; simpl. apply qnorm_qinverse. Qed.

Lemma invert_action (T : Transform) (v : Vector3) :
  m_scale T <> 0 -> unit_rotation T ->
  transform (invert T) (transform T v) = v.
Proof.
  unfold unit_rotation. intros Hs HT.
  unfold transform, invert; simpl.
  rewrite (qinverse_unit _ HT).
  rewrite transformVector_vmul, transformVector_vadd.
  rewrite (transformVector_conjugate _ _ HT).
  generalize (transformVector (conjugate (m_rotation T)) (m_translation T)).
  intros p.
  apply vector3_eq; unfold vadd, vmul; simpl; field; exact Hs.
Qed.

(** The composition law where the operands are two objects.  For
    transforms [A] and [B] with positive scales and unit rotations and every
    vector [v], the transform [A * B] maps [v] to what [B] makes of [A]'s
    image of [v], a transform acting by
    [scale * (rotation * v + translation)]; the same holds for what
    [A *= B] leaves in [A] when [B] is another object than [A], and for
    the in-place [transform] as for [operator*] on vectors. *)
Theorem compose_acts_first_then_second (A B : Transform) (v : Vector3) :
  0 < m_scale A -> 0 < m_scale B -> unit_rotation A -> unit_rotation B ->
  mul_vec A v = vmul (vadd (transformVector (m_rotation A) v) (m_translation A)) (m_scale A)
  /\ mul_vec (mul A B) v = mul_vec B (mul_vec A v)
  /\ transform (mul A B) v = transform B (transform A v)
  /\ (forall (st : store) (this other : loc),
        this <> other -> st this = A -> st other = B ->
        mul_vec (mul_assign this other st this) v = mul_vec B (mul_vec A v)).
Proof.
  intros HsA _ HA HB.
  assert (Hs : m_scale A <> 0) by lra.
  split; [reflexivity|].
  split; [now apply mul_action|].
  split.
  - rewrite !transform_mul_vec. now apply mul_action.
  - intros st this other Hne <- <-.
    rewrite mul_assign_distinct by exact Hne.
    now apply mul_action.
Qed.

(** C2.  For a transform [T] with non-zero scale and unit rotation and
    every vector [v], the inverted transform takes [T]'s image of [v] back
    to [v], and [T * T.inverse()] maps every [v] to itself. *)
Theorem invert_undoes_transform (T : Transform) (v : Vector3) :
  m_scale T <> 0 -> unit_rotation T ->
  transform (invert T) (transform T v) = v
  /\ mul_vec (mul T (inverse T)) v = v.
Proof.
  intros Hs HT. split.
  - now apply invert_action.
  - rewrite mul_action; auto using unit_rotation_invert.
    rewrite <- !transform_mul_vec. now apply invert_action.
Qed.

Lemma qnorm_half_turn_z : qnorm half_turn_z = 1.
Proof. apply qnorm_unit. unfold qsquaredNorm, half_turn_z; simpl. ring. Qed.

Lemma compose_acts_first_then_second_witness :
  (0 < m_scale sample_A /\ 0 < m_scale sample_B
   /\ unit_rotation sample_A /\ unit_rotation sample_B)
  /\ mul_vec (mul sample_A sample_B) sample_v
     = mul_vec sample_B (mul_vec sample_A sample_v).
Proof.
  assert (HA : 0 < m_scale sample_A) by (simpl; lra).
  assert (HB : 0 < m_scale sample_B) by (simpl; lra).
  assert (UA : unit_rotation sample_A) by exact qnorm_half_turn_z.
  assert (UB : unit_rotation sample_B) by exact qnorm_QIdentity.
  split; [tauto|].
  exact (proj1 (proj2
    (compose_acts_first_then_second sample_A sample_B sample_v HA HB UA UB))).
Defined.

Lemma invert_undoes_transform_witness :
  (m_scale sample_A <> 0 /\ unit_rotation sample_A)
  /\ transform (invert sample_A) (transform sample_A sample_v) = sample_v.
Proof.
  assert (HA : m_scale sample_A <> 0) by (simpl; lra).
  assert (UA : unit_rotation sample_A) by exact qnorm_half_turn_z.
  split; [tauto|].
  exact (proj1 (invert_undoes_transform sample_A sample_v HA UA)).
Defined.

(** ** The parallelism kernel *)

Lemma squaredNorm_vadd_vsub (d1 d2 : Vector3) :
  squaredNorm (vadd d1 d2) - squaredNorm (vsub d1 d2) = 4 * dot d1 d2.
Proof. unfold squaredNorm, dot, vadd, vsub; simpl. ring. Qed.

(** The scalar product is not negative exactly when the difference is
    not longer than the sum. *)
Lemma dot_nonneg_iff_norm_le (d1 d2 : Vector3) :
  dot d1 d2 >= 0 <-> norm (vsub d1 d2) <= norm (vadd d1 d2).
Proof.
  pose proof (squaredNorm_vadd_vsub d1 d2) as E.
  pose proof (squaredNorm_nonneg (vadd d1 d2)) as Hp.
  pose proof (squaredNorm_nonneg (vsub d1 d2)) as Hm.
  unfold norm. split; intros H.
  - apply sqrt_le_1_alt. lra.
  - apply sqrt_le_0 in H; lra.
Qed.

(** C3.  The residual [calc d1 d2 dir] is the length of [d1 - d2] for
    [Same], the length of [d1 + d2] for [Opposite], and for [Both] the
    length of [d1 - d2] when the scalar product of [d1] and [d2] is at
    least 0 (so also when it is exactly 0) and the length of [d1 + d2]
    otherwise; for (1,0,0), (0,1,0) and [Same] it is the square root
    of 2. *)
Theorem calc_residual (d1 d2 : Vector3) :
  parallel.calc d1 d2 Same
    = sqrt ((vx d1 - vx d2) * (vx d1 - vx d2) + (vy d1 - vy d2) * (vy d1 - vy d2)
            + (vz d1 - vz d2) * (vz d1 - vz d2))
  /\ parallel.calc d1 d2 Opposite
    = sqrt ((vx d1 + vx d2) * (vx d1 + vx d2) + (vy d1 + vy d2) * (vy d1 + vy d2)
            + (vz d1 + vz d2) * (vz d1 + vz d2))
  /\ (dot d1 d2 >= 0 -> parallel.calc d1 d2 Both = parallel.calc d1 d2 Same)
  /\ (dot d1 d2 < 0 -> parallel.calc d1 d2 Both = parallel.calc d1 d2 Opposite)
  /\ (dot d1 d2 = 0 -> parallel.calc d1 d2 Both = parallel.calc d1 d2 Same)
  /\ parallel.calc (mkVector3 1 0 0) (mkVector3 0 1 0) Same = sqrt 2.
Proof.
  repeat split.
  - intros H. unfold parallel.calc.
    destruct (Rge_dec (dot d1 d2) 0); [reflexivity|contradiction].
  - intros H. unfold parallel.calc.
    destruct (Rge_dec (dot d1 d2) 0); [lra|reflexivity].
  - intros H. unfold parallel.calc.
    destruct (Rge_dec (dot d1 d2) 0); [reflexivity|lra].
  - unfold parallel.calc, norm, squaredNorm, dot, vsub; simpl.
    f_equal. ring.
Qed.

(** C5.  In the [Both] case the residual and the two directional
    gradients take one and the same branch for the same [d1] and [d2]:
    the [Same] formula when the scalar product is at least 0, the
    [Opposite] formula otherwise. *)
Theorem gradients_select_branch_of_residual (d1 d2 : Vector3) :
  (branch_of d1 d2 = Same /\ dot d1 d2 >= 0
   \/ branch_of d1 d2 = Opposite /\ dot d1 d2 < 0)
  /\ parallel.calc d1 d2 Both = parallel.calc d1 d2 (branch_of d1 d2)
  /\ (forall dd1 : Vector3,
        parallel.calcGradFirst d1 d2 dd1 Both
        = parallel.calcGradFirst d1 d2 dd1 (branch_of d1 d2))
  /\ (forall dd2 : Vector3,
        parallel.calcGradSecond d1 d2 dd2 Both
        = parallel.calcGradSecond d1 d2 dd2 (branch_of d1 d2)).
Proof.
  unfold branch_of, parallel.calc, parallel.calcGradFirst, parallel.calcGradSecond.
  destruct (Rge_dec (dot d1 d2) 0) as [H|H].
  - repeat split; auto.
  - repeat split; auto. right. split; [reflexivity|lra].
Qed.

(** C10.  The [Both] residual is the smaller of the [Same] and the
    [Opposite] residual, the scalar product being at least 0 exactly when
    [d1 - d2] is not longer than [d1 + d2]. *)
Theorem calc_Both_is_min (d1 d2 : Vector3) :
  (dot d1 d2 >= 0 <-> norm (vsub d1 d2) <= norm (vadd d1 d2))
  /\ parallel.calc d1 d2 Both
     = Rmin (parallel.calc d1 d2 Same) (parallel.calc d1 d2 Opposite).
Proof.
  split; [apply dot_nonneg_iff_norm_le|].
  unfold parallel.calc, Rmin.
  destruct (Rge_dec (dot d1 d2) 0) as [H|H];
    destruct (Rle_dec (norm (vsub d1 d2)) (norm (vadd d1 d2))) as [L|L];
    try reflexivity.
  - apply dot_nonneg_iff_norm_le in H. contradiction.
  - apply dot_nonneg_iff_norm_le in L. contradiction.
Qed.

(** C6.  A full-gradient function called with [Both] fails its
    assertion, in the kernel and through every [Parallel3D]; called with
    [Same] or [Opposite] it returns and has written the closed form:
    [(d1 - d2) / |d1 - d2|] (first) and [(d2 - d1) / |d1 - d2|] (second)
    for [Same], [(d1 + d2) / |d1 + d2|] and [(d2 + d1) / |d1 + d2|] for
    [Opposite]. *)
Theorem full_gradient_contract (d1 d2 grad : Vector3) :
  (parallel.calcGradFirstComp d1 d2 grad Both = None
   /\ parallel.calcGradSecondComp d1 d2 grad Both = None)
  /\ (forall (Tag1 Tag2 : tag) (param1 param2 gradient : list R),
        Parallel3D.calculateGradientFirstComplete Tag1 Tag2 Both param1 param2 gradient = None
        /\ Parallel3D.calculateGradientSecondComplete Tag1 Tag2 Both param1 param2 gradient = None)
  /\ (forall dir : Direction, dir <> Both ->
        exists g1 g2 : Vector3,
          parallel.calcGradFirstComp d1 d2 grad dir = Some g1
          /\ parallel.calcGradSecondComp d1 d2 grad dir = Some g2)
  /\ parallel.calcGradFirstComp d1 d2 grad Same
     = Some (vdiv (vsub d1 d2) (norm (vsub d1 d2)))
  /\ parallel.calcGradSecondComp d1 d2 grad Same
     = Some (vdiv (vsub d2 d1) (norm (vsub d1 d2)))
  /\ parallel.calcGradFirstComp d1 d2 grad Opposite
     = Some (vdiv (vadd d1 d2) (norm (vadd d1 d2)))
  /\ parallel.calcGradSecondComp d1 d2 grad Opposite
     = Some (vdiv (vadd d2 d1) (norm (vadd d1 d2))).
Proof.
  split; [split; reflexivity|].
  split.
  - intros Tag1 Tag2 param1 param2 gradient.
    assert (L1 : Parallel3D_line.calculateGradientFirstComplete Both param1 param2 gradient = None).
    { unfold Parallel3D_line.calculateGradientFirstComplete.
      destruct (set_head3 gradient Zero) as [g|]; simpl; [|reflexivity].
      destruct (tail3 param1); simpl; [|reflexivity].
      destruct (tail3 param2); simpl; [|reflexivity].
      destruct (tail3 g); reflexivity. }
    assert (L2 : Parallel3D_line.calculateGradientSecondComplete Both param1 param2 gradient = None).
    { unfold Parallel3D_line.calculateGradientSecondComplete.
      destruct (set_head3 gradient Zero) as [g|]; simpl; [|reflexivity].
      destruct (tail3 param1); simpl; [|reflexivity].
      destruct (tail3 param2); simpl; [|reflexivity].
      destruct (tail3 g); reflexivity. }
    assert (K1 : Parallel3D_cylinder.calculateGradientFirstComplete Both param1 param2 gradient = None).
    { unfold Parallel3D_cylinder.calculateGradientFirstComplete.
      destruct (set_head3 gradient Zero) as [g|]; simpl; [|reflexivity].
      destruct (segment3 param1 3); simpl; [|reflexivity].
      destruct (segment3 param2 3); simpl; [|reflexivity].
      destruct (segment3 g 3); reflexivity. }
    assert (K2 : Parallel3D_cylinder.calculateGradientSecondComplete Both param1 param2 gradient = None).
    { unfold Parallel3D_cylinder.calculateGradientSecondComplete.
      destruct (set_head3 gradient Zero) as [g|]; simpl; [|reflexivity].
      destruct (segment3 param1 3); simpl; [|reflexivity].
      destruct (segment3 param2 3); simpl; [|reflexivity].
      destruct (segment3 g 3); reflexivity. }
    unfold Parallel3D.calculateGradientFirstComplete,
      Parallel3D.calculateGradientSecondComplete.
    destruct Tag1, Tag2; auto.
  - split.
    + intros [ | | ] Hdir; [| |congruence]; simpl; eauto.
    + repeat split.
Qed.

(** ** Complete gradients on parameter blocks *)

(** A line (or plane) block has six entries, the direction being the
    last three: with [Same] or [Opposite] the complete gradient is zero in
    the three position entries and the closed form in the direction. *)
Lemma line_gradient_zero_outside_direction
    (dir : Direction) (a0 a1 a2 x1 y1 z1 b0 b1 b2 x2 y2 z2 : R)
    (g0 g1 g2 g3 g4 g5 : R) (w : Vector3) :
  parallel.calcGradFirstComp (mkVector3 x1 y1 z1) (mkVector3 x2 y2 z2)
    (mkVector3 g3 g4 g5) dir = Some w ->
  Parallel3D_line.calculateGradientFirstComplete dir
    [a0; a1; a2; x1; y1; z1] [b0; b1; b2; x2; y2; z2] [g0; g1; g2; g3; g4; g5]
  = Some [0; 0; 0; vx w; vy w; vz w].
Proof.
  intros H. unfold Parallel3D_line.calculateGradientFirstComplete; simpl.
  unfold tail3, segment3; simpl. rewrite H. reflexivity.
Qed.

(** A cylinder block carries further entries behind the direction (the
    radius): the complete gradient is zero in the three position entries,
    the closed form in the direction, and whatever the caller's buffer held
    in every entry behind it. *)
Lemma cylinder_gradient_first_frame
    (dir : Direction) (a0 a1 a2 x1 y1 z1 b0 b1 b2 x2 y2 z2 : R)
    (ra rb : list R) (g0 g1 g2 g3 g4 g5 : R) (rest : list R) (w : Vector3) :
  parallel.calcGradFirstComp (mkVector3 x1 y1 z1) (mkVector3 x2 y2 z2)
    (mkVector3 g3 g4 g5) dir = Some w ->
  Parallel3D_cylinder.calculateGradientFirstComplete dir
    (a0 :: a1 :: a2 :: x1 :: y1 :: z1 :: ra)
    (b0 :: b1 :: b2 :: x2 :: y2 :: z2 :: rb)
    (g0 :: g1 :: g2 :: g3 :: g4 :: g5 :: rest)
  = Some (0 :: 0 :: 0 :: vx w :: vy w :: vz w :: rest).
Proof.
  intros H. unfold Parallel3D_cylinder.calculateGradientFirstComplete; simpl.
  unfold segment3; simpl. rewrite H. reflexivity.
Qed.

Lemma cylinder_gradient_second_frame
    (dir : Direction) (a0 a1 a2 x1 y1 z1 b0 b1 b2 x2 y2 z2 : R)
    (ra rb : list R) (g0 g1 g2 g3 g4 g5 : R) (rest : list R) (w : Vector3) :
  parallel.calcGradSecondComp (mkVector3 x1 y1 z1) (mkVector3 x2 y2 z2)
    (mkVector3 g3 g4 g5) dir = Some w ->
  Parallel3D_cylinder.calculateGradientSecondComplete dir
    (a0 :: a1 :: a2 :: x1 :: y1 :: z1 :: ra)
    (b0 :: b1 :: b2 :: x2 :: y2 :: z2 :: rb)
    (g0 :: g1 :: g2 :: g3 :: g4 :: g5 :: rest)
  = Some (0 :: 0 :: 0 :: vx w :: vy w :: vz w :: rest).
Proof.
  intros H. unfold Parallel3D_cylinder.calculateGradientSecondComplete; simpl.
  unfold segment3; simpl. rewrite H. reflexivity.
Qed.

(** C8, on the code.  Two cylinders with axes (1,0,0) and (0,1,0) and
    radius 2, direction [Same], and a gradient buffer that holds 9 in every
    entry: the complete gradients come back with 9 still in the radius
    entry, which is no direction entry and not zero. *)
Theorem cylinder_gradient_keeps_radius_entry :
  let d1 := mkVector3 1 0 0 in
  let d2 := mkVector3 0 1 0 in
  let w1 := vdiv (vsub d1 d2) (norm (vsub d1 d2)) in
  let w2 := vdiv (vsub d2 d1) (norm (vsub d1 d2)) in
  Parallel3D.calculateGradientFirstComplete cylinder3D cylinder3D Same
    [0; 0; 0; 1; 0; 0; 2] [0; 0; 0; 0; 1; 0; 2] [9; 9; 9; 9; 9; 9; 9]
  = Some [0; 0; 0; vx w1; vy w1; vz w1; 9]
  /\ Parallel3D.calculateGradientSecondComplete cylinder3D cylinder3D Same
    [0; 0; 0; 1; 0; 0; 2] [0; 0; 0; 0; 1; 0; 2] [9; 9; 9; 9; 9; 9; 9]
  = Some [0; 0; 0; vx w2; vy w2; vz w2; 9]
  /\ nth 6 [0; 0; 0; vx w1; vy w1; vz w1; 9] 0 = 9
  /\ nth 6 [0; 0; 0; vx w2; vy w2; vz w2; 9] 0 = 9
  /\ 9 <> 0.
Proof.
  intros d1 d2 w1 w2. split; [|split; [|split; [|split]]].
  - apply (cylinder_gradient_first_frame Same). reflexivity.
  - apply (cylinder_gradient_second_frame Same). reflexivity.
  - reflexivity.
  - reflexivity.
  - lra.
Qed.

(** ** Single-field operations against the composition law *)

Lemma vdiv_Zero (s : R) : vdiv Zero s = Zero.
Proof. apply vector3_eq; unfold vdiv, Zero, Rdiv; simpl; ring. Qed.

Lemma vadd_Zero_r (v : Vector3) : vadd v Zero = v.
Proof. vec_ring. Qed.

Lemma normalized_QIdentity : normalized QIdentity = QIdentity.
Proof. apply normalized_unit, qnorm_QIdentity. Qed.

Lemma normalized_idempotent (r : Quaternion) :
  r <> QZero -> normalized (normalized r) = normalized r.
Proof. intros Hr. apply normalized_unit, qnorm_normalized, Hr. Qed.

Lemma transformVector_half_turn_z (v : Vector3) :
  transformVector half_turn_z v = mkVector3 (- vx v) (- vy v) (vz v).
Proof. unfold half_turn_z. vec_ring. Qed.

(** C4, as stated, fails on the code.  [sample_A] has rotation the half
    turn about z, translation (1,0,0) and scale 2.  Rotating it by the half
    turn keeps the translation (1,0,0), composing it with the rotation-only
    transform turns the translation into (-1,0,0); translating it by
    (1,0,0) gives the translation (2,0,0), composing it with the
    translation-only transform gives (3/2,0,0). *)
Lemma single_field_operations_differ_from_composition :
  m_translation (rotate sample_A half_turn_z) = mkVector3 1 0 0
  /\ m_translation (mul sample_A (Transform_r half_turn_z)) = mkVector3 (-1) 0 0
  /\ m_translation (translate sample_A (mkVector3 1 0 0)) = mkVector3 2 0 0
  /\ m_translation (mul sample_A (Transform_t (mkVector3 1 0 0)))
     = mkVector3 (3 / 2) 0 0
  /\ rotate sample_A half_turn_z <> mul sample_A (Transform_r half_turn_z)
  /\ translate sample_A (mkVector3 1 0 0)
     <> mul sample_A (Transform_t (mkVector3 1 0 0)).
Proof.
  assert (E1 : m_translation (mul sample_A (Transform_r half_turn_z))
               = mkVector3 (-1) 0 0).
  { rewrite mul_fields; simpl.
    rewrite (normalized_unit _ qnorm_half_turn_z), transformVector_half_turn_z.
    apply vector3_eq; unfold vadd, vdiv, Zero; simpl; field. }
  assert (E2 : m_translation (translate sample_A (mkVector3 1 0 0))
               = mkVector3 2 0 0).
  { apply vector3_eq; unfold translate, vadd; simpl; ring. }
  assert (E3 : m_translation (mul sample_A (Transform_t (mkVector3 1 0 0)))
               = mkVector3 (3 / 2) 0 0).
  { rewrite mul_fields; simpl. rewrite transformVector_QIdentity.
    apply vector3_eq; unfold vadd, vdiv; simpl; field. }
  repeat split; auto.
  - intros H. apply (f_equal (fun T => vx (m_translation T))) in H.
    rewrite E1 in H. simpl in H. lra.
  - intros H. apply (f_equal (fun T => vx (m_translation T))) in H.
    rewrite E2, E3 in H. simpl in H. lra.
Qed.

(** C4, amended.  For a transform [A], a rotation [r] other than the zero
    quaternion and a translation [t]: [A.rotate(r)] has the rotation and
    the scale of [A * Transform(r)] and keeps [A]'s translation, where the
    composition has [r] applied to it, so the two are the same transform
    when [A]'s translation is zero; [A.translate(t)] has the rotation and
    the scale of [A * Transform(t)] and the translation
    [A.translation + t], where the composition has
    [A.translation + t / A.scale], so the two are the same transform when
    [A]'s scale is 1. *)
Theorem single_field_operations_vs_composition
    (A : Transform) (r : Quaternion) (t : Vector3) :
  r <> QZero ->
  (m_rotation (rotate A r) = m_rotation (mul A (Transform_r r))
   /\ m_scale (rotate A r) = m_scale (mul A (Transform_r r))
   /\ m_translation (rotate A r) = m_translation A
   /\ m_translation (mul A (Transform_r r))
      = transformVector (normalized r) (m_translation A)
   /\ (m_translation A = Zero -> rotate A r = mul A (Transform_r r)))
  /\ (m_rotation (translate A t) = m_rotation (mul A (Transform_t t))
   /\ m_scale (translate A t) = m_scale (mul A (Transform_t t))
   /\ m_translation (translate A t) = vadd (m_translation A) t
   /\ m_translation (mul A (Transform_t t))
      = vadd (m_translation A) (vdiv t (m_scale A))
   /\ (m_scale A = 1 -> translate A t = mul A (Transform_t t))).
Proof.
  intros Hr. destruct A as [q p s]. rewrite !mul_fields; simpl.
  rewrite (normalized_idempotent r Hr), normalized_QIdentity,
    qmul_QIdentity_l, vdiv_Zero, vadd_Zero_r, transformVector_QIdentity.
  split.
  - repeat split.
    + ring.
    + intros ->. unfold rotate, with_rotation; simpl.
      rewrite transformVector_Zero. f_equal. ring.
  - repeat split.
    + ring.
    + intros ->. unfold translate, with_translation; simpl. f_equal.
      * apply vector3_eq; unfold vadd, vdiv; simpl; field.
      * ring.
Qed.

Lemma half_turn_z_nonzero : half_turn_z <> QZero.
Proof. intros H. apply (f_equal qz) in H. simpl in H. lra. Qed.

Lemma single_field_operations_vs_composition_witness :
  half_turn_z <> QZero
  /\ m_rotation (rotate sample_A half_turn_z)
     = m_rotation (mul sample_A (Transform_r half_turn_z))
  /\ m_translation (mul sample_A (Transform_t sample_v))
     = vadd (m_translation sample_A) (vdiv sample_v (m_scale sample_A)).
Proof.
  pose proof (single_field_operations_vs_composition
                sample_A half_turn_z sample_v half_turn_z_nonzero) as H.
  split; [exact half_turn_z_nonzero|].
  split; [exact (proj1 (proj1 H))|].
  exact (proj1 (proj2 (proj2 (proj2 (proj2 H))))).
Defined.

(** ** The unit-norm invariant of the rotation *)

Lemma qnorm_QZero : qnorm QZero = 0.
Proof.
  unfold qnorm, qsquaredNorm, QZero; simpl.
  replace (0 * 0 + 0 * 0 + 0 * 0 + 0 * 0) with 0 by ring. apply sqrt_0.
Qed.

Lemma normalized_QZero : normalized QZero = QZero.
Proof.
  apply quaternion_eq; unfold normalized, qdiv, QZero, Rdiv; simpl; ring.
Qed.

(** C7, as stated, fails on the code.  The default transform has a unit
    rotation; [setRotation] with the zero quaternion, a value of the
    argument's type, leaves it a rotation of norm 0.  (Dividing the zero
    coefficients by their norm gives zero in this model; in [double] it
    gives NaN or, in Eigen versions whose [normalize] skips a zero norm,
    zero.  None of them has norm one.) *)
Lemma setRotation_zero_quaternion_not_unit :
  unit_rotation Transform_default
  /\ qnorm (m_rotation (setRotation Transform_default QZero)) = 0
  /\ ~ unit_rotation (setRotation Transform_default QZero).
Proof.
  assert (E : qnorm (m_rotation (setRotation Transform_default QZero)) = 0).
  { unfold setRotation; simpl. rewrite normalized_QZero. apply qnorm_QZero. }
  split; [exact qnorm_QIdentity|]. split; [exact E|].
  unfold unit_rotation. rewrite E. lra.
Qed.

(** C7, amended.  For a transform whose rotation is unit-norm, the
    rotation is unit-norm again after every mutating operation
    (constructors, [setRotation], [rotate], [setTranslation], [translate],
    [setScale], [scale], [invert], [setIdentity], [normalize], every
    [operator=] and every [operator*=], the self-composition [A *= A]
    included), provided a rotation argument is not the zero quaternion and
    a [Transform] argument has a unit-norm rotation itself. *)
Theorem mutation_keeps_unit_rotation (m : Mutation) (T : Transform) :
  unit_rotation T -> admissible m -> unit_rotation (mutate m T).
Proof.
  unfold unit_rotation. intros HT Hm.
  destruct m; simpl in *;
    try exact qnorm_QIdentity;
    try exact HT;
    try (apply qnorm_normalized; exact Hm);
    try exact Hm.
  - (* rotate *)
    apply qnorm_qmul; [apply qnorm_normalized; exact Hm|exact HT].
  - (* invert *)
    apply qnorm_qinverse, HT.
  - (* normalize *)
    rewrite (normalized_unit _ HT). exact HT.
  - (* operator*=(Rotation) *)
    apply qnorm_qmul; [apply qnorm_normalized; exact Hm|exact HT].
  - (* operator*=(Transform) *)
    rewrite (normalized_unit _ Hm). apply qnorm_qmul; assumption.
  - (* operator*= on itself *)
    rewrite (normalized_unit _ HT). apply qnorm_qmul; assumption.
Qed.

Lemma mutation_keeps_unit_rotation_witness :
  (unit_rotation sample_A /\ admissible (Rotate half_turn_z))
  /\ unit_rotation (mutate (Rotate half_turn_z) sample_A).
Proof.
  assert (UA : unit_rotation sample_A) by exact qnorm_half_turn_z.
  assert (Hm : admissible (Rotate half_turn_z)) by exact half_turn_z_nonzero.
  split; [tauto|].
  exact (mutation_keeps_unit_rotation (Rotate half_turn_z) sample_A UA Hm).
Defined.

(** ** Lengths and distances *)

Lemma norm_Zero : norm Zero = 0.
Proof.
  unfold norm, squaredNorm, dot, Zero; simpl.
  replace (0 * 0 + 0 * 0 + 0 * 0) with 0 by ring. apply sqrt_0.
Qed.

Lemma squaredNorm_zero (v : Vector3) : squaredNorm v = 0 -> v = Zero.
Proof.
  unfold squaredNorm, dot. intros H.
  apply vector3_eq; simpl; nra.
Qed.

Lemma distance_self (p : Vector3) : distance p p = 0.
Proof.
  unfold distance. replace (vsub p p) with Zero by (symmetry; vec_ring).
  apply norm_Zero.
Qed.

Lemma distance_pos (a b : Vector3) : a <> b -> 0 < distance a b.
Proof.
  intros Hab. unfold distance, norm. apply sqrt_lt_R0.
  destruct (squaredNorm_nonneg (vsub a b)) as [H|H]; [exact H|].
  exfalso. apply Hab. symmetry in H. apply squaredNorm_zero in H.
  apply (f_equal vx) in H as Hx. apply (f_equal vy) in H as Hy.
  apply (f_equal vz) in H as Hz. simpl in Hx, Hy, Hz.
  apply vector3_eq; lra.
Qed.

(** ** Self-composition in place

    [A *= A] is outside the composition law: for [sample_A] (half turn
    about z, translation (1,0,0), scale 2) the value [A * A] has the
    translation (-1/2,0,0) the law gives, while [A *= A] leaves
    (3/2,0,0), because the second and third statement read the rotation
    and the translation of [other] after the first two have changed
    them. *)
Lemma mul_assign_self_departs_from_mul :
  m_translation (mul sample_A sample_A) = mkVector3 (- (1 / 2)) 0 0
  /\ m_translation (mul_assign_self sample_A) = mkVector3 (3 / 2) 0 0.
Proof.
  split.
  - rewrite mul_fields; simpl. rewrite transformVector_half_turn_z.
    apply vector3_eq; unfold vadd, vdiv; simpl; field.
  - rewrite mul_assign_self_fields; simpl.
    rewrite (normalized_unit _ qnorm_half_turn_z).
    replace (qmul half_turn_z half_turn_z) with (mkQuaternion (-1) 0 0 0)
      by (unfold half_turn_z; quat_ring).
    replace (transformVector (mkQuaternion (-1) 0 0 0) (mkVector3 1 0 0))
      with (mkVector3 1 0 0) by vec_ring.
    apply vector3_eq; unfold vadd, vdiv; simpl; field.
Qed.

(** C1, on the code.  [sample_A] has a unit rotation (the half turn about
    z), translation (1,0,0) and the positive scale 2, and applying it twice
    takes the origin to (-2,0,0), which is also where [A * A] takes it.
    The in-place call [A *= A], in which [other] is the object itself,
    leaves a transform that takes the origin to (6,0,0): the composed
    transform does not act as "[A] first, then [A]". *)
Theorem mul_assign_aliased_breaks_composition :
  unit_rotation sample_A
  /\ 0 < m_scale sample_A
  /\ mul_vec sample_A (mul_vec sample_A Zero) = mkVector3 (-2) 0 0
  /\ mul_vec (mul sample_A sample_A) Zero = mkVector3 (-2) 0 0
  /\ mul_vec (mul_assign 0%nat 0%nat (fun _ => sample_A) 0%nat) Zero
     = mkVector3 6 0 0.
Proof.
  split; [exact qnorm_half_turn_z|]. split; [simpl; lra|].
  split; [|split].
  - unfold mul_vec. rewrite transformVector_Zero.
    cbn [sample_A m_rotation m_translation m_scale].
    rewrite transformVector_half_turn_z.
    apply vector3_eq; unfold vadd, vmul, Zero; simpl; ring.
  - unfold mul_vec. rewrite transformVector_Zero.
    rewrite (proj1 mul_assign_self_departs_from_mul).
    replace (m_scale (mul sample_A sample_A)) with (2 * 2) by reflexivity.
    apply vector3_eq; unfold vadd, vmul, Zero; simpl; field.
  - change (mul_assign 0%nat 0%nat (fun _ => sample_A) 0%nat)
      with (mul_assign_self sample_A).
    unfold mul_vec. rewrite transformVector_Zero.
    rewrite (proj2 mul_assign_self_departs_from_mul).
    replace (m_scale (mul_assign_self sample_A)) with (2 * 2) by reflexivity.
    apply vector3_eq; unfold vadd, vmul, Zero; simpl; field.
Qed.

(** * Further properties of the code *)

(** ** The algebra of composition *)

Lemma qmul_assoc (a b c : Quaternion) : qmul a (qmul b c) = qmul (qmul a b) c.
Proof. quat_ring. Qed.

Lemma qmul_QIdentity_r (q : Quaternion) : qmul q QIdentity = q.
Proof. quat_ring. Qed.

Lemma conjugate_involutive (q : Quaternion) : conjugate (conjugate q) = q.
Proof. quat_ring. Qed.

Lemma qnorm_conjugate (q : Quaternion) : qnorm q = 1 -> qnorm (conjugate q) = 1.
Proof.
  intros H. apply qnorm_unit. rewrite qsquaredNorm_conjugate.
  now apply qnorm_unit.
Qed.

Lemma qmul_conjugate_l (q : Quaternion) :
  qnorm q = 1 -> qmul (conjugate q) q = QIdentity.
Proof.
  intros H. apply qnorm_unit in H. unfold qsquaredNorm in H.
  apply quaternion_eq; unfold qmul, conjugate, QIdentity; simpl; lra.
Qed.

Lemma qmul_conjugate_r (q : Quaternion) :
  qnorm q = 1 -> qmul q (conjugate q) = QIdentity.
Proof.
  intros H. apply qnorm_unit in H. unfold qsquaredNorm in H.
  apply quaternion_eq; unfold qmul, conjugate, QIdentity; simpl; lra.
Qed.

Lemma transformVector_conjugate_r (q : Quaternion) (v : Vector3) :
  qnorm q = 1 -> transformVector q (transformVector (conjugate q) v) = v.
Proof.
  intros H. rewrite <- (conjugate_involutive q) at 1.
  apply transformVector_conjugate, qnorm_conjugate, H.
Qed.

Lemma transformVector_vdiv (q : Quaternion) (a : Vector3) (s : R) :
  transformVector q (vdiv a s) = vdiv (transformVector q a) s.
Proof. vec_ring; unfold Rdiv; ring. Qed.

(** Composition is associative on the fields themselves: with unit
    rotations in [B] and [C] and non-zero scales in [A] and [B],
    [(A * B) * C] and [A * (B * C)] are the same transform. *)
Theorem mul_associative (A B C : Transform) :
  m_scale A <> 0 -> m_scale B <> 0 -> unit_rotation B -> unit_rotation C ->
  mul (mul A B) C = mul A (mul B C).
Proof.
  unfold unit_rotation. intros HsA HsB HB HC.
  rewrite !mul_fields; simpl.
  rewrite (normalized_unit _ HB), (normalized_unit _ HC).
  rewrite (normalized_unit _ (qnorm_qmul _ _ HC HB)).
  rewrite (transformVector_qmul _ _ _ HC HB).
  rewrite transformVector_vadd, transformVector_vdiv.
  generalize (transformVector (m_rotation C)
                (transformVector (m_rotation B) (m_translation A))).
  generalize (transformVector (m_rotation C) (m_translation B)).
  intros p q. f_equal.
  - apply qmul_assoc.
  - apply vector3_eq; unfold vadd, vdiv; simpl; field; auto.
  - ring.
Qed.

Lemma mul_associative_witness :
  mul (mul sample_A sample_B) sample_A = mul sample_A (mul sample_B sample_A).
Proof.
  apply (mul_associative sample_A sample_B sample_A).
  - simpl; lra.
  - simpl; lra.
  - exact qnorm_QIdentity.
  - exact qnorm_half_turn_z.
Defined.

Lemma Identity_default : Identity = Transform_default.
Proof.
  unfold Identity, Transform_rts, Transform_default.
  now rewrite normalized_QIdentity.
Qed.

(** [Transform::Identity()] is neutral for composition: on the right for
    every transform with a non-zero scale, on the left for every transform
    with a unit rotation; and it maps every vector to itself. *)
Theorem Identity_neutral (A : Transform) (v : Vector3) :
  m_scale A <> 0 -> unit_rotation A ->
  mul A Identity = A /\ mul Identity A = A /\ transform Identity v = v.
Proof.
  unfold unit_rotation. intros Hs HA.
  rewrite Identity_default. destruct A as [q t s]; simpl in *.
  rewrite !mul_fields; simpl.
  rewrite normalized_QIdentity, qmul_QIdentity_l, (normalized_unit _ HA),
    qmul_QIdentity_r, transformVector_QIdentity, transformVector_Zero,
    vdiv_Zero, vadd_Zero_r.
  split; [|split].
  - f_equal. ring.
  - f_equal; [|ring].
    apply vector3_eq; unfold vadd, vdiv, Zero; simpl; field.
  - unfold transform, Transform_default; simpl.
    rewrite transformVector_QIdentity. vec_ring.
Qed.

Lemma Identity_neutral_witness :
  mul sample_A Identity = sample_A /\ mul Identity sample_A = sample_A.
Proof.
  assert (Hs : m_scale sample_A <> 0) by (simpl; lra).
  pose proof (Identity_neutral sample_A sample_v Hs qnorm_half_turn_z) as H.
  split; [exact (proj1 H)|exact (proj1 (proj2 H))].
Defined.

(** [inverse] gives a two-sided inverse on the fields: for a unit
    rotation and a non-zero scale, composing a transform with its inverse
    in either order gives rotation identity, translation zero and
    scale 1. *)
Theorem inverse_two_sided (T : Transform) :
  m_scale T <> 0 -> unit_rotation T ->
  mul T (inverse T) = Transform_default
  /\ mul (inverse T) T = Transform_default.
Proof.
  unfold unit_rotation. intros Hs HT. destruct T as [q t s]; simpl in *.
  unfold inverse, invert; rewrite !mul_fields; simpl.
  rewrite (qinverse_unit _ HT), (normalized_unit _ HT),
    (normalized_unit _ (qnorm_conjugate _ HT)),
    (qmul_conjugate_l _ HT), (qmul_conjugate_r _ HT),
    transformVector_vmul, (transformVector_conjugate_r _ _ HT).
  unfold Transform_default. split.
  - f_equal.
    + generalize (transformVector (conjugate q) t). intros p.
      apply vector3_eq; unfold vadd, vmul, vdiv, Zero; simpl; field; exact Hs.
    + field; exact Hs.
  - f_equal.
    + apply vector3_eq; unfold vadd, vmul, vdiv, Zero; simpl; field; exact Hs.
    + field; exact Hs.
Qed.

Lemma inverse_two_sided_witness :
  mul sample_A (inverse sample_A) = Transform_default
  /\ mul (inverse sample_A) sample_A = Transform_default.
Proof.
  apply (inverse_two_sided sample_A).
  - simpl; lra.
  - exact qnorm_half_turn_z.
Defined.

(** Inverting twice gives the transform back, for a unit rotation and a
    non-zero scale. *)
Theorem invert_involutive (T : Transform) :
  m_scale T <> 0 -> unit_rotation T -> invert (invert T) = T.
Proof.
  unfold unit_rotation. intros Hs HT. destruct T as [q t s]; simpl in *.
  unfold invert; simpl.
  rewrite (qinverse_unit _ HT), (qinverse_unit _ (qnorm_conjugate _ HT)),
    conjugate_involutive, transformVector_vmul,
    (transformVector_conjugate_r _ _ HT).
  unfold with_scale, with_translation, with_rotation; simpl. f_equal.
  - apply vector3_eq; unfold vmul; simpl; field; exact Hs.
  - field; exact Hs.
Qed.

Lemma invert_involutive_witness : invert (invert sample_A) = sample_A.
Proof.
  apply (invert_involutive sample_A).
  - simpl; lra.
  - exact qnorm_half_turn_z.
Defined.

(** ** A transform is a similarity *)

Lemma transformVector_vsub (q : Quaternion) (a b : Vector3) :
  transformVector q (vsub a b) = vsub (transformVector q a) (transformVector q b).
Proof. vec_ring. Qed.

Lemma squaredNorm_sandwich (q : Quaternion) (v : Vector3) :
  squaredNorm (sandwich q v)
  = qsquaredNorm q * qsquaredNorm q * squaredNorm v.
Proof.
  unfold sandwich, squaredNorm, qsquaredNorm, dot, cross, vadd, vmul, vec; simpl.
  ring.
Qed.

Lemma squaredNorm_transformVector (q : Quaternion) (v : Vector3) :
  qnorm q = 1 -> squaredNorm (transformVector q v) = squaredNorm v.
Proof.
  intros H. rewrite (transformVector_unit _ _ H), squaredNorm_sandwich.
  apply qnorm_unit in H. rewrite H. ring.
Qed.

Lemma norm_vmul (v : Vector3) (s : R) : norm (vmul v s) = Rabs s * norm v.
Proof.
  unfold norm.
  replace (squaredNorm (vmul v s)) with (Rsqr s * squaredNorm v)
    by (unfold squaredNorm, dot, vmul, Rsqr; simpl; ring).
  rewrite sqrt_mult; [|apply Rle_0_sqr|apply squaredNorm_nonneg].
  now rewrite sqrt_Rsqr_abs.
Qed.

(** A transform with a unit rotation multiplies every distance by the
    absolute value of its scale; rotating a vector alone keeps its
    length. *)
Theorem transform_scales_distances (T : Transform) (a b : Vector3) :
  unit_rotation T ->
  distance (transform T a) (transform T b) = Rabs (m_scale T) * distance a b
  /\ norm (rotate_vec T a) = norm a.
Proof.
  unfold unit_rotation. intros HT. split.
  - unfold distance.
    replace (vsub (transform T a) (transform T b))
      with (vmul (transformVector (m_rotation T) (vsub a b)) (m_scale T)).
    2:{ unfold transform. rewrite transformVector_vsub.
        generalize (transformVector (m_rotation T) a)
                   (transformVector (m_rotation T) b).
        intros p q. apply vector3_eq; unfold vsub, vadd, vmul; simpl; ring. }
    rewrite norm_vmul. f_equal.
    unfold norm. now rewrite squaredNorm_transformVector.
  - unfold rotate_vec, norm. now rewrite squaredNorm_transformVector.
Qed.

Lemma transform_scales_distances_witness :
  distance (transform sample_A sample_v) (transform sample_A Zero)
  = Rabs (m_scale sample_A) * distance sample_v Zero.
Proof.
  exact (proj1 (transform_scales_distances sample_A sample_v Zero
                  qnorm_half_turn_z)).
Defined.

(** ** Composition in place with itself *)

(** [A *= A] against [A * A].  Rotation and scale agree.  The translation
    of [A *= A] is [t' + t' / scale] with [t'] the old translation turned by
    the rotation of the result, where [A * A] has the old translation turned
    by the old rotation plus the old translation over the scale.  The two are
    the same transform when the translation is zero or the rotation is the
    identity; but there is a transform with unit rotation and positive scale
    for which what [A *= A] leaves does not map a vector to where applying
    the old [A] twice does. *)
Theorem mul_assign_self_vs_mul (A : Transform) :
  m_rotation (mul_assign_self A) = m_rotation (mul A A)
  /\ m_scale (mul_assign_self A) = m_scale (mul A A)
  /\ m_translation (mul_assign_self A)
     = vadd (transformVector (m_rotation (mul A A)) (m_translation A))
            (vdiv (transformVector (m_rotation (mul A A)) (m_translation A))
                  (m_scale A))
  /\ m_translation (mul A A)
     = vadd (transformVector (m_rotation A) (m_translation A))
            (vdiv (m_translation A) (m_scale A))
  /\ (m_translation A = Zero -> mul_assign_self A = mul A A)
  /\ (m_rotation A = QIdentity -> mul_assign_self A = mul A A)
  /\ (exists (A' : Transform) (v : Vector3),
        unit_rotation A' /\ 0 < m_scale A'
        /\ vx (mul_vec (mul_assign_self A') v) = 6
        /\ vx (mul_vec A' (mul_vec A' v)) = -2).
Proof.
  repeat (split; [reflexivity|]).
  split; [|split].
  - intros Ht. rewrite mul_assign_self_fields, mul_fields; simpl.
    rewrite Ht, !transformVector_Zero. reflexivity.
  - intros Hq. rewrite mul_assign_self_fields, mul_fields; simpl.
    rewrite Hq, normalized_QIdentity, qmul_QIdentity_l,
      !transformVector_QIdentity. reflexivity.
  - exists sample_A, Zero.
    split; [exact qnorm_half_turn_z|]. split; [simpl; lra|].
    split.
    + unfold mul_vec. rewrite transformVector_Zero.
      rewrite (proj2 mul_assign_self_departs_from_mul).
      replace (m_scale (mul_assign_self sample_A)) with (2 * 2) by reflexivity.
      unfold vadd, vmul, Zero; simpl. field.
    + unfold mul_vec. rewrite transformVector_Zero.
      cbn [sample_A m_rotation m_translation m_scale].
      rewrite transformVector_half_turn_z.
      unfold vadd, vmul, Zero; simpl. ring.
Qed.

(** ** Rotation arguments are taken up to their length *)

Lemma qnorm_qscale (q : Quaternion) (k : R) :
  qnorm (qscale q k) = Rabs k * qnorm q.
Proof.
  unfold qnorm.
  replace (qsquaredNorm (qscale q k)) with (Rsqr k * qsquaredNorm q)
    by (unfold qsquaredNorm, qscale, Rsqr; simpl; ring).
  rewrite sqrt_mult; [|apply Rle_0_sqr|apply qsquaredNorm_nonneg].
  now rewrite sqrt_Rsqr_abs.
Qed.

Lemma qnorm_pos (q : Quaternion) : q <> QZero -> 0 < qnorm q.
Proof. intros H. apply sqrt_lt_R0, qsquaredNorm_pos, H. Qed.

Lemma normalized_qscale_pos (q : Quaternion) (k : R) :
  0 < k -> q <> QZero -> normalized (qscale q k) = normalized q.
Proof.
  intros Hk Hq. pose proof (qnorm_pos q Hq) as Hn.
  unfold normalized. rewrite qnorm_qscale, (Rabs_pos_eq k) by lra.
  apply quaternion_eq; unfold qdiv, qscale; simpl; field; lra.
Qed.

Lemma normalized_qscale_neg (q : Quaternion) (k : R) :
  k < 0 -> q <> QZero -> normalized (qscale q k) = qscale (normalized q) (-1).
Proof.
  intros Hk Hq. pose proof (qnorm_pos q Hq) as Hn.
  unfold normalized. rewrite qnorm_qscale, (Rabs_left k) by lra.
  apply quaternion_eq; unfold qdiv, qscale; simpl; field; lra.
Qed.

Lemma transformVector_qscale_opp (q : Quaternion) (v : Vector3) :
  transformVector (qscale q (-1)) v = transformVector q v.
Proof. unfold qscale. vec_ring. Qed.

(** Only the direction of a rotation argument counts: a quaternion other
    than zero and any non-zero multiple of it give [setRotation] results
    that rotate every vector alike, and the same fields when the multiple is
    positive. *)
Theorem setRotation_ignores_length
    (T : Transform) (r : Quaternion) (k : R) (v : Vector3) :
  k <> 0 -> r <> QZero ->
  rotate_vec (setRotation T (qscale r k)) v = rotate_vec (setRotation T r) v
  /\ (0 < k -> setRotation T (qscale r k) = setRotation T r
               /\ Transform_r (qscale r k) = Transform_r r).
Proof.
  intros Hk Hr. unfold rotate_vec, setRotation, Transform_r; simpl.
  destruct (Rlt_dec 0 k) as [Hpos|Hneg].
  - rewrite (normalized_qscale_pos r k Hpos Hr). auto.
  - split; [|intros; lra].
    rewrite (normalized_qscale_neg r k) by (auto; lra).
    apply transformVector_qscale_opp.
Qed.

Lemma setRotation_ignores_length_witness :
  rotate_vec (setRotation sample_A (qscale half_turn_z (-3))) sample_v
  = rotate_vec (setRotation sample_A half_turn_z) sample_v.
Proof.
  assert (Hk : -3 <> 0) by lra.
  exact (proj1 (setRotation_ignores_length sample_A half_turn_z (-3) sample_v
                  Hk half_turn_z_nonzero)).
Defined.

(** ** [isApprox] *)

Lemma Rltb_true (x y : R) : Rltb x y = true <-> x < y.
Proof. unfold Rltb. destruct (Rlt_dec x y); split; intros; auto; discriminate. Qed.

Lemma Rleb_true (x y : R) : Rleb x y = true <-> x <= y.
Proof. unfold Rleb. destruct (Rle_dec x y); split; intros; auto; discriminate. Qed.

Lemma norm_nonneg (v : Vector3) : 0 <= norm v.
Proof. apply sqrt_pos. Qed.

Lemma norm_vsub_sym (a b : Vector3) : norm (vsub a b) = norm (vsub b a).
Proof.
  unfold norm. f_equal. unfold squaredNorm, dot, vsub; simpl. ring.
Qed.

(** [isApprox] compares with strict inequalities on translation and
    scale: a transform is approximately itself exactly when the tolerance
    is positive, no two transforms are approximately equal under a tolerance
    of 0 or less, and the comparison does not depend on the order of the
    two transforms. *)
Theorem isApprox_tolerance (T U : Transform) (prec : R) :
  (isApprox T T prec = true <-> 0 < prec)
  /\ (prec <= 0 -> isApprox T U prec = false)
  /\ isApprox T U prec = isApprox U T prec.
Proof.
  split; [|split].
  - unfold isApprox. rewrite !andb_true_iff, !Rltb_true.
    replace (vsub (m_translation T) (m_translation T)) with Zero
      by (symmetry; vec_ring).
    rewrite norm_Zero, Rminus_diag, Rabs_R0. split; [tauto|].
    intros Hp. repeat split; auto.
    apply Rleb_true. unfold qisApprox.
    replace (qsquaredNorm (qsub (m_rotation T) (m_rotation T))) with 0
      by (unfold qsquaredNorm, qsub; simpl; ring).
    rewrite Rmin_left by lra.
    pose proof (qsquaredNorm_nonneg (m_rotation T)). nra.
  - intros Hp. unfold isApprox.
    assert (E : Rltb (norm (vsub (m_translation T) (m_translation U))) prec = false).
    { unfold Rltb. destruct (Rlt_dec _ prec) as [H|H]; [|reflexivity].
      pose proof (norm_nonneg (vsub (m_translation T) (m_translation U))). lra. }
    rewrite E, andb_false_r. reflexivity.
  - unfold isApprox, qisApprox.
    rewrite (norm_vsub_sym (m_translation T) (m_translation U)).
    rewrite (Rabs_minus_sym (m_scale T) (m_scale U)).
    rewrite (Rmin_comm (qsquaredNorm (m_rotation T))).
    replace (qsquaredNorm (qsub (m_rotation T) (m_rotation U)))
      with (qsquaredNorm (qsub (m_rotation U) (m_rotation T)))
      by (unfold qsquaredNorm, qsub; simpl; ring).
    reflexivity.
Qed.

(** ** [transformation] *)

Lemma mat_vec_toRotationMatrix (q : Quaternion) (v : Vector3) :
  mat_vec (toRotationMatrix q) v = transformVector q v.
Proof. unfold mat_vec, toRotationMatrix. vec_ring. Qed.

(** The affine map [transformation()] returns sends [v] to the rotation
    of [v + translation]: it leaves the scale out and adds the translation
    before it rotates, where [transform] rotates first, then adds the
    translation, then scales.  So [transform] is the affine map's image with
    the rotated translation taken off and the translation put on, times the
    scale. *)
Theorem transformation_action (T : Transform) (v : Vector3) :
  affine_apply (transformation T) v = rotate_vec T (translate_vec T v)
  /\ transform T v = scale_vec T (translate_vec T (rotate_vec T v))
  /\ transform T v
     = vmul (vadd (vsub (affine_apply (transformation T) v)
                        (rotate_vec T (m_translation T)))
                  (m_translation T))
            (m_scale T).
Proof.
  assert (E : affine_apply (transformation T) v
              = rotate_vec T (translate_vec T v)).
  { unfold affine_apply, transformation, affine_mul, Affine_of_matrix,
      Affine_of_translation, rotate_vec, translate_vec; simpl.
    rewrite transformVector_vadd, <- !mat_vec_toRotationMatrix.
    generalize (toRotationMatrix (m_rotation T)). intros M.
    apply vector3_eq; unfold mat_vec, mat_mul, MIdentity, vadd, Zero; simpl; ring. }
  split; [exact E|]. split; [reflexivity|].
  rewrite E. unfold transform, rotate_vec, translate_vec.
  rewrite transformVector_vadd.
  generalize (transformVector (m_rotation T) v)
             (transformVector (m_rotation T) (m_translation T)).
  intros p q. apply vector3_eq; unfold vadd, vsub, vmul; simpl; ring.
Qed.

(** ** The residual and its gradients *)

Lemma norm_zero_iff (v : Vector3) : norm v = 0 <-> v = Zero.
Proof.
  split.
  - intros H. apply squaredNorm_zero.
    apply sqrt_eq_0; [apply squaredNorm_nonneg|exact H].
  - intros ->. apply norm_Zero.
Qed.

Lemma vsub_Zero_iff (a b : Vector3) : vsub a b = Zero <-> a = b.
Proof.
  split.
  - intros H. apply (f_equal vx) in H as Hx. apply (f_equal vy) in H as Hy.
    apply (f_equal vz) in H as Hz. simpl in Hx, Hy, Hz.
    apply vector3_eq; lra.
  - intros ->. vec_ring.
Qed.

Lemma vadd_Zero_iff (a b : Vector3) : vadd a b = Zero <-> a = vneg b.
Proof.
  split.
  - intros H. apply (f_equal vx) in H as Hx. apply (f_equal vy) in H as Hy.
    apply (f_equal vz) in H as Hz. simpl in Hx, Hy, Hz.
    apply vector3_eq; simpl; lra.
  - intros ->. vec_ring.
Qed.

Lemma dot_self_nonneg (v : Vector3) : 0 <= dot v v.
Proof. apply squaredNorm_nonneg. Qed.

Lemma dot_vneg_self (v : Vector3) : dot (vneg v) v = - dot v v.
Proof. unfold dot, vneg; simpl. ring. Qed.

(** The residual is never negative, and it vanishes exactly on the
    configurations the direction asks for: equal vectors for [Same],
    opposite vectors for [Opposite], either of the two for [Both]. *)
Theorem calc_zero_iff (d1 d2 : Vector3) :
  (forall dir : Direction, 0 <= parallel.calc d1 d2 dir)
  /\ (parallel.calc d1 d2 Same = 0 <-> d1 = d2)
  /\ (parallel.calc d1 d2 Opposite = 0 <-> d1 = vneg d2)
  /\ (parallel.calc d1 d2 Both = 0 <-> d1 = d2 \/ d1 = vneg d2).
Proof.
  split; [|split; [|split]].
  - intros dir. unfold parallel.calc.
    destruct dir; [| |destruct (Rge_dec (dot d1 d2) 0)]; apply norm_nonneg.
  - unfold parallel.calc. rewrite norm_zero_iff. apply vsub_Zero_iff.
  - unfold parallel.calc. rewrite norm_zero_iff. apply vadd_Zero_iff.
  - unfold parallel.calc. destruct (Rge_dec (dot d1 d2) 0) as [H|H].
    + rewrite norm_zero_iff, vsub_Zero_iff. split; [tauto|].
      intros [E|E]; [exact E|]. subst d1.
      rewrite dot_vneg_self in H. pose proof (dot_self_nonneg d2) as Hd.
      assert (Hz : d2 = Zero) by (apply squaredNorm_zero; unfold squaredNorm; lra).
      rewrite Hz. vec_ring.
    + rewrite norm_zero_iff, vadd_Zero_iff. split; [tauto|].
      intros [E|E]; [|exact E]. subst d1.
      pose proof (dot_self_nonneg d2). lra.
Qed.

Lemma dot_comm (a b : Vector3) : dot a b = dot b a.
Proof. unfold dot. ring. Qed.

Lemma vadd_comm (a b : Vector3) : vadd a b = vadd b a.
Proof. vec_ring. Qed.

(** The residual does not depend on which of the two directions comes
    first. *)
Theorem calc_symmetric (d1 d2 : Vector3) (dir : Direction) :
  parallel.calc d1 d2 dir = parallel.calc d2 d1 dir.
Proof.
  unfold parallel.calc.
  rewrite (dot_comm d2 d1), (norm_vsub_sym d2 d1), (vadd_comm d2 d1).
  reflexivity.
Qed.

Lemma dot_vdiv_l (w dd : Vector3) (n : R) : dot (vdiv w n) dd = dot w dd / n.
Proof. unfold dot, vdiv, Rdiv; simpl. ring. Qed.

(** The directional gradients are the complete gradients times the
    direction of change: whenever the complete-gradient functions return,
    [calcGradFirst] is the scalar product of what [calcGradFirstComp] wrote
    with [dd], and [calcGradSecond] that of what [calcGradSecondComp] wrote. *)
Theorem directional_gradient_from_complete
    (d1 d2 grad dd w1 w2 : Vector3) (dir : Direction) :
  parallel.calcGradFirstComp d1 d2 grad dir = Some w1 ->
  parallel.calcGradSecondComp d1 d2 grad dir = Some w2 ->
  parallel.calcGradFirst d1 d2 dd dir = dot w1 dd
  /\ parallel.calcGradSecond d1 d2 dd dir = dot w2 dd.
Proof.
  destruct dir; simpl; intros H1 H2; try discriminate;
    injection H1 as <-; injection H2 as <-;
    rewrite !dot_vdiv_l; split; try reflexivity;
    unfold dot, vsub, vadd, vneg, Rdiv; simpl; ring.
Qed.

Lemma directional_gradient_from_complete_witness :
  parallel.calcGradFirst (mkVector3 1 0 0) (mkVector3 0 1 0) sample_v Same
  = dot (vdiv (vsub (mkVector3 1 0 0) (mkVector3 0 1 0))
              (norm (vsub (mkVector3 1 0 0) (mkVector3 0 1 0)))) sample_v.
Proof.
  exact (proj1 (directional_gradient_from_complete
                  (mkVector3 1 0 0) (mkVector3 0 1 0) Zero sample_v _ _ Same
                  eq_refl eq_refl)).
Defined.

(** The gradient with respect to the second direction against the one
    with respect to the first, along the same change: the negative for
    [Same], the same for [Opposite], and for [Both] whichever of the two the
    branch taken says. *)
Theorem gradient_second_vs_first (d1 d2 dd : Vector3) :
  parallel.calcGradSecond d1 d2 dd Same = - parallel.calcGradFirst d1 d2 dd Same
  /\ parallel.calcGradSecond d1 d2 dd Opposite = parallel.calcGradFirst d1 d2 dd Opposite
  /\ (dot d1 d2 >= 0 ->
      parallel.calcGradSecond d1 d2 dd Both = - parallel.calcGradFirst d1 d2 dd Both)
  /\ (dot d1 d2 < 0 ->
      parallel.calcGradSecond d1 d2 dd Both = parallel.calcGradFirst d1 d2 dd Both).
Proof.
  assert (E : dot (vsub d1 d2) (vneg dd) / norm (vsub d1 d2)
              = - (dot (vsub d1 d2) dd / norm (vsub d1 d2))).
  { unfold dot, vneg, Rdiv; simpl. ring. }
  unfold parallel.calcGradSecond, parallel.calcGradFirst.
  split; [exact E|]. split; [reflexivity|].
  destruct (Rge_dec (dot d1 d2) 0); split; intros; try lra; auto.
Qed.

Lemma norm_vdiv_self (v : Vector3) : v <> Zero -> norm (vdiv v (norm v)) = 1.
Proof.
  intros Hv.
  assert (Hn : 0 < norm v).
  { destruct (norm_nonneg v) as [H|H]; [exact H|].
    exfalso. apply Hv, norm_zero_iff. symmetry; exact H. }
  replace (vdiv v (norm v)) with (vmul v (/ norm v)) by reflexivity.
  rewrite norm_vmul, Rabs_pos_eq.
  - field. lra.
  - left. now apply Rinv_0_lt_compat.
Qed.

(** Away from the degenerate configurations the complete gradients are
    unit vectors: for [Same] with [d1] different from [d2], and for
    [Opposite] with [d1] different from [-d2], what either function writes
    has length 1. *)
Theorem complete_gradient_unit_length
    (d1 d2 grad w1 w2 : Vector3) (dir : Direction) :
  (dir = Same -> d1 <> d2) ->
  (dir = Opposite -> d1 <> vneg d2) ->
  parallel.calcGradFirstComp d1 d2 grad dir = Some w1 ->
  parallel.calcGradSecondComp d1 d2 grad dir = Some w2 ->
  norm w1 = 1 /\ norm w2 = 1.
Proof.
  intros HS HO H1 H2. destruct dir; simpl in H1, H2; try discriminate;
    injection H1 as <-; injection H2 as <-.
  - specialize (HS eq_refl).
    assert (Hv : vsub d1 d2 <> Zero).
    { intros E. apply (proj1 (vsub_Zero_iff _ _)) in E. contradiction. }
    split; [apply norm_vdiv_self; exact Hv|].
    rewrite (norm_vsub_sym d1 d2). apply norm_vdiv_self.
    intros E. apply (proj1 (vsub_Zero_iff _ _)) in E. symmetry in E. contradiction.
  - specialize (HO eq_refl).
    assert (Hv : vadd d1 d2 <> Zero).
    { intros E. apply (proj1 (vadd_Zero_iff _ _)) in E. contradiction. }
    split; [apply norm_vdiv_self; exact Hv|].
    rewrite (vadd_comm d2 d1). apply norm_vdiv_self; exact Hv.
Qed.

Lemma complete_gradient_unit_length_witness :
  norm (vdiv (vsub (mkVector3 1 0 0) (mkVector3 0 1 0))
             (norm (vsub (mkVector3 1 0 0) (mkVector3 0 1 0)))) = 1.
Proof.
  assert (Hne : mkVector3 1 0 0 <> mkVector3 0 1 0).
  { intros E. apply (f_equal vx) in E. simpl in E. lra. }
  assert (HO : Same = Opposite -> mkVector3 1 0 0 <> vneg (mkVector3 0 1 0)).
  { intros E. discriminate E. }
  exact (proj1 (complete_gradient_unit_length
                  (mkVector3 1 0 0) (mkVector3 0 1 0) Zero _ _ Same
                  (fun _ => Hne) HO eq_refl eq_refl)).
Defined.

(** ** The directional gradients are derivatives of the residual *)

Lemma derivable_pt_lim_quadratic (a b c : R) :
  derivable_pt_lim (fun e => a + b * e + c * e * e) 0 b.
Proof.
  intros eps Heps.
  assert (Hd : 0 < eps / (Rabs c + 1)).
  { apply Rdiv_lt_0_compat; [exact Heps|]. pose proof (Rabs_pos c). lra. }
  exists (mkposreal _ Hd). intros h Hh Hlt. simpl in Hlt.
  replace ((a + b * (0 + h) + c * (0 + h) * (0 + h) - (a + b * 0 + c * 0 * 0)) / h - b)
    with (c * h) by (field; exact Hh).
  rewrite Rabs_mult.
  pose proof (Rabs_pos c) as Hc. pose proof (Rabs_pos h) as Hh'.
  assert (Hk : Rabs h * (Rabs c + 1) < eps).
  { apply (Rmult_lt_compat_r (Rabs c + 1)) in Hlt; [|lra].
    unfold Rdiv in Hlt. rewrite Rmult_assoc, Rinv_l in Hlt by lra. lra. }
  nra.
Qed.

(** The length of [w + e dd] as a function of [e] has the derivative
    [w . dd / |w|] at 0, when [w] is not zero. *)
Lemma derivable_pt_lim_norm (w dd : Vector3) :
  w <> Zero ->
  derivable_pt_lim (fun e => norm (vadd w (vmul dd e))) 0 (dot w dd / norm w).
Proof.
  intros Hw.
  assert (Hpos : 0 < squaredNorm w).
  { destruct (squaredNorm_nonneg w) as [H|H]; [exact H|].
    exfalso. apply Hw, squaredNorm_zero. symmetry; exact H. }
  pose (f := fun e : R => squaredNorm w + 2 * dot w dd * e + squaredNorm dd * e * e).
  assert (Hf0 : f 0 = squaredNorm w) by (unfold f; ring).
  assert (Hf : derivable_pt_lim f 0 (2 * dot w dd))
    by apply derivable_pt_lim_quadratic.
  assert (Hs : derivable_pt_lim sqrt (f 0) (/ (2 * sqrt (f 0)))).
  { apply derivable_pt_lim_sqrt. rewrite Hf0. exact Hpos. }
  pose proof (derivable_pt_lim_comp f sqrt 0 _ _ Hf Hs) as Hc.
  assert (Hn : sqrt (squaredNorm w) <> 0).
  { pose proof (sqrt_lt_R0 _ Hpos). lra. }
  replace (dot w dd / norm w) with (/ (2 * sqrt (f 0)) * (2 * dot w dd)).
  - apply (derivable_pt_lim_ext (comp sqrt f)); [|exact Hc].
    intros e. unfold comp, norm, f. f_equal.
    unfold squaredNorm, dot, vadd, vmul; simpl. ring.
  - rewrite Hf0. unfold norm. field. exact Hn.
Qed.

(** For [Same] and [Opposite], away from the degenerate configurations,
    [calcGradFirst] is the derivative of the residual when the first
    direction moves along [dd], and [calcGradSecond] the derivative when the
    second one does. *)
Theorem directional_gradients_are_derivatives
    (d1 d2 dd : Vector3) (dir : Direction) :
  dir <> Both ->
  (dir = Same -> d1 <> d2) ->
  (dir = Opposite -> d1 <> vneg d2) ->
  derivable_pt_lim (fun e => parallel.calc (vadd d1 (vmul dd e)) d2 dir) 0
                   (parallel.calcGradFirst d1 d2 dd dir)
  /\ derivable_pt_lim (fun e => parallel.calc d1 (vadd d2 (vmul dd e)) dir) 0
                      (parallel.calcGradSecond d1 d2 dd dir).
Proof.
  intros HB HS HO. destruct dir; [| |congruence]; simpl.
  - assert (Hw : vsub d1 d2 <> Zero).
    { intros E. apply (proj1 (vsub_Zero_iff _ _)) in E. now apply HS. }
    split.
    + apply (derivable_pt_lim_ext
               (fun e => norm (vadd (vsub d1 d2) (vmul dd e)))).
      * intros e. f_equal. vec_ring.
      * now apply derivable_pt_lim_norm.
    + apply (derivable_pt_lim_ext
               (fun e => norm (vadd (vsub d1 d2) (vmul (vneg dd) e)))).
      * intros e. f_equal. vec_ring.
      * now apply derivable_pt_lim_norm.
  - assert (Hw : vadd d1 d2 <> Zero).
    { intros E. apply (proj1 (vadd_Zero_iff _ _)) in E. now apply HO. }
    split.
    + apply (derivable_pt_lim_ext
               (fun e => norm (vadd (vadd d1 d2) (vmul dd e)))).
      * intros e. f_equal. vec_ring.
      * now apply derivable_pt_lim_norm.
    + apply (derivable_pt_lim_ext
               (fun e => norm (vadd (vadd d1 d2) (vmul dd e)))).
      * intros e. f_equal. vec_ring.
      * now apply derivable_pt_lim_norm.
Qed.

Lemma directional_gradients_are_derivatives_witness :
  mkVector3 1 0 0 <> mkVector3 0 1 0
  /\ derivable_pt_lim
    (fun e => parallel.calc (vadd (mkVector3 1 0 0) (vmul sample_v e))
                            (mkVector3 0 1 0) Same) 0
    (parallel.calcGradFirst (mkVector3 1 0 0) (mkVector3 0 1 0) sample_v Same).
Proof.
  assert (HB : Same <> Both) by discriminate.
  assert (Hne : mkVector3 1 0 0 <> mkVector3 0 1 0).
  { intros E. apply (f_equal vx) in E. simpl in E. lra. }
  assert (HO : Same = Opposite -> mkVector3 1 0 0 <> vneg (mkVector3 0 1 0)).
  { intros E. discriminate E. }
  split; [exact Hne|].
  exact (proj1 (directional_gradients_are_derivatives
                  (mkVector3 1 0 0) (mkVector3 0 1 0) sample_v Same
                  HB (fun _ => Hne) HO)).
Defined.

(** ** [Parallel3D] on parameter blocks: bounds and footprint *)

Lemma segment3_None_iff (v : list R) (i : nat) :
  segment3 v i = None <-> (length v < i + 3)%nat.
Proof.
  unfold segment3. pose proof (length_skipn i v) as E.
  destruct (skipn i v) as [|x [|y [|z l]]]; simpl in E; split; intros H;
    try reflexivity; try discriminate; lia.
Qed.

Lemma tail3_None_iff (v : list R) : tail3 v = None <-> (length v < 3)%nat.
Proof.
  unfold tail3. destruct (Nat.leb_spec 3 (length v)) as [H|H].
  - rewrite segment3_None_iff. lia.
  - split; [lia|reflexivity].
Qed.

Lemma set_segment3_None_iff (v : list R) (i : nat) (w : Vector3) :
  set_segment3 v i w = None <-> (length v < i + 3)%nat.
Proof.
  unfold set_segment3. destruct (Nat.leb_spec (i + 3) (length v)) as [H|H];
    split; intros; try reflexivity; try discriminate; lia.
Qed.

Lemma set_segment3_length (v v' : list R) (i : nat) (w : Vector3) :
  set_segment3 v i w = Some v' -> length v' = length v.
Proof.
  unfold set_segment3. destruct (Nat.leb_spec (i + 3) (length v)) as [H|H];
    [|discriminate].
  intros E. injection E as <-.
  rewrite length_app, length_firstn. cbn [length]. rewrite length_skipn. lia.
Qed.

Lemma set_tail3_None_iff (v : list R) (w : Vector3) :
  set_tail3 v w = None <-> (length v < 3)%nat.
Proof.
  unfold set_tail3. destruct (Nat.leb_spec 3 (length v)) as [H|H].
  - rewrite set_segment3_None_iff. lia.
  - split; [lia|reflexivity].
Qed.

Lemma set_tail3_length (v v' : list R) (w : Vector3) :
  set_tail3 v w = Some v' -> length v' = length v.
Proof.
  unfold set_tail3. destruct (3 <=? length v)%nat; [|discriminate].
  apply set_segment3_length.
Qed.

Lemma calcGradFirstComp_None_iff (d1 d2 grad : Vector3) (dir : Direction) :
  parallel.calcGradFirstComp d1 d2 grad dir = None <-> dir = Both.
Proof. destruct dir; simpl; split; intros; congruence. Qed.

Lemma calcGradSecondComp_None_iff (d1 d2 grad : Vector3) (dir : Direction) :
  parallel.calcGradSecondComp d1 d2 grad dir = None <-> dir = Both.
Proof. destruct dir; simpl; split; intros; congruence. Qed.

Lemma tail3_Some_length (v : list R) (w : Vector3) :
  tail3 v = Some w -> (3 <= length v)%nat.
Proof.
  intros H. destruct (Nat.le_gt_cases 3 (length v)) as [L|L]; [exact L|].
  apply tail3_None_iff in L. congruence.
Qed.

Lemma set_head3_Some_length (v v' : list R) (w : Vector3) :
  set_head3 v w = Some v' -> (3 <= length v)%nat /\ length v' = length v.
Proof.
  unfold set_head3. intros H. split.
  - destruct (Nat.le_gt_cases 3 (length v)) as [L|L]; [exact L|].
    assert (E : set_segment3 v 0 w = None)
      by (apply set_segment3_None_iff; simpl; exact L).
    congruence.
  - exact (set_segment3_length _ _ _ _ H).
Qed.

Ltac line_cases_tac :=
  match goal with
  | |- context [set_head3 ?g Zero] =>
      let g0 := fresh "g0" in
      let E0 := fresh "E0" in
      destruct (set_head3 g Zero) as [g0|] eqn:E0; simpl;
      [ apply set_head3_Some_length in E0; destruct E0 as [? ?]
      | left; split; [reflexivity|];
        apply set_segment3_None_iff in E0; simpl in E0; tauto ]
  end;
  match goal with
  | |- context [tail3 ?p1] =>
      let E1 := fresh "E1" in
      destruct (tail3 p1) eqn:E1; simpl;
      [ apply tail3_Some_length in E1
      | left; split; [reflexivity|]; apply tail3_None_iff in E1; tauto ]
  end;
  match goal with
  | |- context [tail3 ?p2] =>
      let E2 := fresh "E2" in
      destruct (tail3 p2) eqn:E2; simpl;
      [ apply tail3_Some_length in E2
      | left; split; [reflexivity|]; apply tail3_None_iff in E2; tauto ]
  end;
  match goal with
  | |- context [tail3 ?g0] =>
      let E3 := fresh "E3" in
      destruct (tail3 g0) eqn:E3; simpl;
      [ | exfalso; apply tail3_None_iff in E3; lia ]
  end;
  match goal with
  | |- context [match ?dir with Same => _ | Opposite => _ | Both => _ end] =>
      destruct dir; simpl;
      [ | | left; split; [reflexivity|]; now left ]
  end;
  match goal with
  | |- context [set_tail3 ?g0 ?w] =>
      let E4 := fresh "E4" in
      destruct (set_tail3 g0 w) as [g|] eqn:E4;
      [ right; exists g; apply set_tail3_length in E4;
        repeat split; try discriminate; lia
      | exfalso; apply set_tail3_None_iff in E4; lia ]
  end.

Lemma line_first_cases (dir : Direction) (param1 param2 gradient : list R) :
  (Parallel3D_line.calculateGradientFirstComplete dir param1 param2 gradient = None
   /\ (dir = Both \/ (length param1 < 3)%nat \/ (length param2 < 3)%nat
       \/ (length gradient < 3)%nat))
  \/ (exists g,
        Parallel3D_line.calculateGradientFirstComplete dir param1 param2 gradient = Some g
        /\ dir <> Both /\ (3 <= length param1)%nat /\ (3 <= length param2)%nat
        /\ (3 <= length gradient)%nat /\ length g = length gradient).
Proof.
  unfold Parallel3D_line.calculateGradientFirstComplete,
    parallel.calcGradFirstComp.
  line_cases_tac.
Qed.

Lemma line_second_cases (dir : Direction) (param1 param2 gradient : list R) :
  (Parallel3D_line.calculateGradientSecondComplete dir param1 param2 gradient = None
   /\ (dir = Both \/ (length param1 < 3)%nat \/ (length param2 < 3)%nat
       \/ (length gradient < 3)%nat))
  \/ (exists g,
        Parallel3D_line.calculateGradientSecondComplete dir param1 param2 gradient = Some g
        /\ dir <> Both /\ (3 <= length param1)%nat /\ (3 <= length param2)%nat
        /\ (3 <= length gradient)%nat /\ length g = length gradient).
Proof.
  unfold Parallel3D_line.calculateGradientSecondComplete,
    parallel.calcGradSecondComp.
  line_cases_tac.
Qed.

(** The complete gradient of a line or plane pair fails exactly when the
    direction is [Both] or one of the three vectors has fewer than three
    entries; when it returns, the gradient has kept its length. *)
Theorem line_complete_gradient_bounds
    (dir : Direction) (param1 param2 gradient : list R) :
  (Parallel3D_line.calculateGradientFirstComplete dir param1 param2 gradient = None
   <-> dir = Both \/ (length param1 < 3)%nat \/ (length param2 < 3)%nat
       \/ (length gradient < 3)%nat)
  /\ (Parallel3D_line.calculateGradientSecondComplete dir param1 param2 gradient = None
   <-> dir = Both \/ (length param1 < 3)%nat \/ (length param2 < 3)%nat
       \/ (length gradient < 3)%nat)
  /\ (forall g, Parallel3D_line.calculateGradientFirstComplete dir param1 param2 gradient
                = Some g -> length g = length gradient)
  /\ (forall g, Parallel3D_line.calculateGradientSecondComplete dir param1 param2 gradient
                = Some g -> length g = length gradient).
Proof.
  destruct (line_first_cases dir param1 param2 gradient)
    as [[F HF]|(g1 & F & D1 & A1 & B1 & G1 & L1)];
  destruct (line_second_cases dir param1 param2 gradient)
    as [[S HS]|(g2 & S & D2 & A2 & B2 & G2 & L2)];
  rewrite F, S.
  - repeat split; intros; try discriminate; tauto.
  - exfalso. destruct HF as [E|HF]; [contradiction|lia].
  - exfalso. destruct HS as [E|HS]; [contradiction|lia].
  - assert (Hnot : ~ (dir = Both \/ (length param1 < 3)%nat
                      \/ (length param2 < 3)%nat \/ (length gradient < 3)%nat)).
    { intros [E|H]; [contradiction|lia]. }
    split; [split; [discriminate|tauto]|].
    split; [split; [discriminate|tauto]|].
    split; intros g E; injection E as <-; assumption.
Qed.

Lemma cylinder_first_cases (dir : Direction) (param1 param2 gradient : list R) :
  (Parallel3D_cylinder.calculateGradientFirstComplete dir param1 param2 gradient = None
   /\ (dir = Both \/ (length param1 < 6)%nat \/ (length param2 < 6)%nat
       \/ (length gradient < 6)%nat))
  \/ (exists d1 d2 w g3 g4 g5,
        segment3 param1 3 = Some d1 /\ segment3 param2 3 = Some d2
        /\ segment3 gradient 3 = Some (mkVector3 g3 g4 g5)
        /\ parallel.calcGradFirstComp d1 d2 (mkVector3 g3 g4 g5) dir = Some w
        /\ Parallel3D_cylinder.calculateGradientFirstComplete dir param1 param2 gradient
           = Some (0 :: 0 :: 0 :: vx w :: vy w :: vz w :: skipn 6 gradient)).
Proof.
  unfold Parallel3D_cylinder.calculateGradientFirstComplete.
  pose proof (segment3_None_iff param1 3) as H1.
  pose proof (segment3_None_iff param2 3) as H2.
  destruct gradient as [|g0 [|g1 [|g2 [|g3 [|g4 [|g5 rest]]]]]];
    try (left; simpl; split; [|simpl; lia];
         destruct (segment3 param1 3); simpl; try reflexivity;
         destruct (segment3 param2 3); reflexivity).
  simpl.
  destruct (segment3 param1 3) as [d1|]; simpl.
  2:{ left. split; [reflexivity|]. right. left. simpl in H1. apply H1. reflexivity. }
  destruct (segment3 param2 3) as [d2|]; simpl.
  2:{ left. split; [reflexivity|]. right. right. left. simpl in H2. apply H2. reflexivity. }
  unfold segment3 at 1; simpl.
  destruct dir; simpl.
  - right. do 6 eexists. repeat split; reflexivity.
  - right. do 6 eexists. repeat split; reflexivity.
  - left. split; [reflexivity|]. now left.
Qed.

Lemma cylinder_second_cases (dir : Direction) (param1 param2 gradient : list R) :
  (Parallel3D_cylinder.calculateGradientSecondComplete dir param1 param2 gradient = None
   /\ (dir = Both \/ (length param1 < 6)%nat \/ (length param2 < 6)%nat
       \/ (length gradient < 6)%nat))
  \/ (exists d1 d2 w g3 g4 g5,
        segment3 param1 3 = Some d1 /\ segment3 param2 3 = Some d2
        /\ segment3 gradient 3 = Some (mkVector3 g3 g4 g5)
        /\ parallel.calcGradSecondComp d1 d2 (mkVector3 g3 g4 g5) dir = Some w
        /\ Parallel3D_cylinder.calculateGradientSecondComplete dir param1 param2 gradient
           = Some (0 :: 0 :: 0 :: vx w :: vy w :: vz w :: skipn 6 gradient)).
Proof.
  unfold Parallel3D_cylinder.calculateGradientSecondComplete.
  pose proof (segment3_None_iff param1 3) as H1.
  pose proof (segment3_None_iff param2 3) as H2.
  destruct gradient as [|g0 [|g1 [|g2 [|g3 [|g4 [|g5 rest]]]]]];
    try (left; simpl; split; [|simpl; lia];
         destruct (segment3 param1 3); simpl; try reflexivity;
         destruct (segment3 param2 3); reflexivity).
  simpl.
  destruct (segment3 param1 3) as [d1|]; simpl.
  2:{ left. split; [reflexivity|]. right. left. simpl in H1. apply H1. reflexivity. }
  destruct (segment3 param2 3) as [d2|]; simpl.
  2:{ left. split; [reflexivity|]. right. right. left. simpl in H2. apply H2. reflexivity. }
  unfold segment3 at 1; simpl.
  destruct dir; simpl.
  - right. do 6 eexists. repeat split; reflexivity.
  - right. do 6 eexists. repeat split; reflexivity.
  - left. split; [reflexivity|]. now left.
Qed.

Lemma segment3_Some_length (v : list R) (i : nat) (w : Vector3) :
  segment3 v i = Some w -> (i + 3 <= length v)%nat.
Proof.
  intros H. destruct (Nat.le_gt_cases (i + 3) (length v)) as [L|L]; [exact L|].
  apply segment3_None_iff in L. congruence.
Qed.

Lemma length_after_six (a b c d e f : R) (v : list R) :
  (6 <= length v)%nat ->
  length (a :: b :: c :: d :: e :: f :: skipn 6 v) = length v.
Proof. intros H. cbn [length]. rewrite length_skipn. lia. Qed.

(** The complete gradient of a cylinder pair fails exactly when the
    direction is [Both] or one of the three vectors has fewer than six
    entries.  When it returns, the gradient has kept its length, its first
    three entries are zero, and every entry from the seventh on is what the
    caller's buffer held: the function writes entries 0 to 5 and nothing
    else. *)
Theorem cylinder_complete_gradient_bounds
    (dir : Direction) (param1 param2 gradient : list R) :
  (Parallel3D_cylinder.calculateGradientFirstComplete dir param1 param2 gradient = None
   <-> dir = Both \/ (length param1 < 6)%nat \/ (length param2 < 6)%nat
       \/ (length gradient < 6)%nat)
  /\ (Parallel3D_cylinder.calculateGradientSecondComplete dir param1 param2 gradient = None
   <-> dir = Both \/ (length param1 < 6)%nat \/ (length param2 < 6)%nat
       \/ (length gradient < 6)%nat)
  /\ (forall g,
        Parallel3D_cylinder.calculateGradientFirstComplete dir param1 param2 gradient = Some g
        \/ Parallel3D_cylinder.calculateGradientSecondComplete dir param1 param2 gradient = Some g ->
        length g = length gradient
        /\ firstn 3 g = [0; 0; 0]
        /\ skipn 6 g = skipn 6 gradient).
Proof.
  destruct (cylinder_first_cases dir param1 param2 gradient)
    as [[F HF]|(d1 & d2 & w & g3 & g4 & g5 & P1 & P2 & G & K & F)];
  destruct (cylinder_second_cases dir param1 param2 gradient)
    as [[S HS]|(d1' & d2' & w' & g3' & g4' & g5' & P1' & P2' & G' & K' & S)];
  rewrite F, S.
  - split; [tauto|]. split; [tauto|]. intros g [E|E]; discriminate.
  - exfalso. apply segment3_Some_length in P1', P2', G'.
    destruct HF as [->|HF]; [discriminate K'|simpl in *; lia].
  - exfalso. apply segment3_Some_length in P1, P2, G.
    destruct HS as [->|HS]; [discriminate K|simpl in *; lia].
  - apply segment3_Some_length in P1, P2, G. simpl in P1, P2, G.
    assert (Hnot : ~ (dir = Both \/ (length param1 < 6)%nat
                      \/ (length param2 < 6)%nat \/ (length gradient < 6)%nat)).
    { intros [->|H]; [discriminate K|lia]. }
    split; [split; [discriminate|tauto]|].
    split; [split; [discriminate|tauto]|].
    intros g [E|E]; injection E as <-;
      (split; [apply length_after_six; exact G|split; reflexivity]).
Qed.

(** On six-entry blocks the complete gradient of a line or plane pair,
    when it returns, is a six-entry vector whose first three entries, the
    position part, are zero. *)
Theorem line_complete_gradient_footprint
    (dir : Direction) (param1 param2 gradient g : list R) :
  length gradient = 6%nat ->
  Parallel3D_line.calculateGradientFirstComplete dir param1 param2 gradient = Some g
  \/ Parallel3D_line.calculateGradientSecondComplete dir param1 param2 gradient = Some g ->
  length g = 6%nat /\ firstn 3 g = [0; 0; 0].
Proof.
  intros Hlen.
  destruct gradient as [|g0 [|g1 [|g2 [|g3 [|g4 [|g5 [|g6 rest]]]]]]];
    try discriminate Hlen.
  unfold Parallel3D_line.calculateGradientFirstComplete,
    Parallel3D_line.calculateGradientSecondComplete; simpl.
  destruct (tail3 param1) as [d1|]; simpl; [|intros [E|E]; discriminate].
  destruct (tail3 param2) as [d2|]; simpl; [|intros [E|E]; discriminate].
  unfold tail3, segment3; simpl.
  destruct dir; simpl; intros [E|E]; try discriminate;
    injection E as <-; split; reflexivity.
Qed.

Lemma line_complete_gradient_footprint_witness :
  let w := vdiv (vsub (mkVector3 1 0 0) (mkVector3 0 1 0))
                (norm (vsub (mkVector3 1 0 0) (mkVector3 0 1 0))) in
  let g := [0; 0; 0; vx w; vy w; vz w] in
  length [9; 9; 9; 9; 9; 9] = 6%nat
  /\ length g = 6%nat /\ firstn 3 g = [0; 0; 0].
Proof.
  split; [reflexivity|].
  exact (line_complete_gradient_footprint Same
           [0; 0; 0; 1; 0; 0] [0; 0; 0; 0; 1; 0] [9; 9; 9; 9; 9; 9] _
           eq_refl (or_introl eq_refl)).
Defined.

(** On six-entry blocks the cylinder code and the line code are the same
    function: residual, directional gradients and complete gradients agree,
    because the last three entries are then entries 3 to 5. *)
Theorem line_and_cylinder_agree_on_six
    (dir : Direction) (param1 param2 other : list R) :
  length param1 = 6%nat -> length param2 = 6%nat -> length other = 6%nat ->
  Parallel3D_line.calculate dir param1 param2
  = Parallel3D_cylinder.calculate dir param1 param2
  /\ Parallel3D_line.calculateGradientFirst dir param1 param2 other
     = Parallel3D_cylinder.calculateGradientFirst dir param1 param2 other
  /\ Parallel3D_line.calculateGradientSecond dir param1 param2 other
     = Parallel3D_cylinder.calculateGradientSecond dir param1 param2 other
  /\ Parallel3D_line.calculateGradientFirstComplete dir param1 param2 other
     = Parallel3D_cylinder.calculateGradientFirstComplete dir param1 param2 other
  /\ Parallel3D_line.calculateGradientSecondComplete dir param1 param2 other
     = Parallel3D_cylinder.calculateGradientSecondComplete dir param1 param2 other.
Proof.
  intros H1 H2 H3.
  destruct param1 as [|a0 [|a1 [|a2 [|a3 [|a4 [|a5 [|a6 ra]]]]]]];
    try discriminate H1.
  destruct param2 as [|b0 [|b1 [|b2 [|b3 [|b4 [|b5 [|b6 rb]]]]]]];
    try discriminate H2.
  destruct other as [|c0 [|c1 [|c2 [|c3 [|c4 [|c5 [|c6 rc]]]]]]];
    try discriminate H3.
  repeat split; destruct dir; reflexivity.
Qed.

Lemma line_and_cylinder_agree_on_six_witness :
  Parallel3D_line.calculate Both [0; 0; 0; 1; 0; 0] [0; 0; 0; 0; 1; 0]
  = Parallel3D_cylinder.calculate Both [0; 0; 0; 1; 0; 0] [0; 0; 0; 0; 1; 0]
  /\ length [9; 9; 9; 9; 9; 9] = 6%nat.
Proof.
  split; [|reflexivity].
  exact (proj1 (line_and_cylinder_agree_on_six Both
                  [0; 0; 0; 1; 0; 0] [0; 0; 0; 0; 1; 0] [9; 9; 9; 9; 9; 9]
                  eq_refl eq_refl eq_refl)).
Defined.

(** ** Single-field operations accumulate *)

Lemma qnorm_qmul_mult (a b : Quaternion) : qnorm (qmul a b) = qnorm a * qnorm b.
Proof.
  unfold qnorm. rewrite qsquaredNorm_qmul.
  apply sqrt_mult; apply qsquaredNorm_nonneg.
Qed.

Lemma normalized_qmul (a b : Quaternion) :
  a <> QZero -> b <> QZero ->
  normalized (qmul a b) = qmul (normalized a) (normalized b).
Proof.
  intros Ha Hb. pose proof (qnorm_pos a Ha). pose proof (qnorm_pos b Hb).
  unfold normalized. rewrite qnorm_qmul_mult.
  apply quaternion_eq; unfold qdiv, qmul; simpl; field; lra.
Qed.

(** Repeating a single-field operation is the operation with the combined
    argument: two translations add, two scalings multiply, and two rotations
    by quaternions other than zero are the rotation by their product, the
    later one on the left.  Scaling a transform scales every image. *)
Theorem single_field_operations_accumulate
    (T : Transform) (a b : Quaternion) (t u v : Vector3) (j k : R) :
  a <> QZero -> b <> QZero ->
  rotate (rotate T a) b = rotate T (qmul b a)
  /\ translate (translate T t) u = translate T (vadd t u)
  /\ scale (scale T j) k = scale T (j * k)
  /\ transform (scale T k) v = vmul (transform T v) k.
Proof.
  intros Ha Hb. destruct T as [q p s].
  unfold rotate, translate, scale, transform, with_rotation, with_translation,
    with_scale; simpl.
  split; [|split; [|split]].
  - rewrite (normalized_qmul b a Hb Ha), qmul_assoc. reflexivity.
  - f_equal. vec_ring.
  - f_equal. ring.
  - generalize (transformVector q v). intros w. vec_ring.
Qed.

Lemma single_field_operations_accumulate_witness :
  rotate (rotate sample_A half_turn_z) half_turn_z
  = rotate sample_A (qmul half_turn_z half_turn_z).
Proof.
  exact (proj1 (single_field_operations_accumulate sample_A half_turn_z
                  half_turn_z Zero Zero Zero 1 1
                  half_turn_z_nonzero half_turn_z_nonzero)).
Defined.

(** ** Rebuilding a transform from its parts *)

(** Assigning a transform's rotation to any transform, then multiplying in
    place by its translation and by its scaling, rebuilds the transform,
    provided its rotation is unit-norm; without the scaling step the result
    is the transform with scale 1. *)
Theorem rebuild_from_parts (X T : Transform) :
  unit_rotation T ->
  mul_Translation (assign_Rotation X (m_rotation T)) (m_translation T)
  = with_scale T 1
  /\ mul_Scaling
       (mul_Translation (assign_Rotation X (m_rotation T)) (m_translation T))
       (m_scale T)
     = T.
Proof.
  unfold unit_rotation. intros HT. destruct T as [q t s]; simpl in *.
  unfold mul_Scaling, mul_Translation, assign_Rotation, scale, translate,
    with_scale, with_translation; simpl.
  rewrite (normalized_unit _ HT).
  replace (vadd Zero t) with t by (symmetry; vec_ring).
  split; [reflexivity|]. f_equal. ring.
Qed.

Lemma rebuild_from_parts_witness :
  mul_Scaling
    (mul_Translation (assign_Rotation sample_B (m_rotation sample_A))
                     (m_translation sample_A))
    (m_scale sample_A)
  = sample_A.
Proof.
  exact (proj2 (rebuild_from_parts sample_B sample_A qnorm_half_turn_z)).
Defined.
